(** * rn-show-more-text: the text measuring helpers and the truncation step

    A shallow embedding of [src/helper.ts] and of [calculateTruncatedText]
    of [src/rnShowMoreText.tsx] (the current revision, the last of the three
    kept in that file, and the first one, which [src/rnShowMoreText.ios.tsx]
    still is), with the properties its specification states.

    Conventions of the embedding:
    - a JavaScript string is the list of its UTF-16 code units;
    - a JavaScript number that counts (an index, a length) is a [nat] or a
      [Z]; a number that measures (a width in pixels) is an exact rational
      [Q], so rounding of doubles is not modelled. Two widths are stated
      to be equal only where both sides add and multiply the same numbers
      in the same order, or where the numbers involved are ones a double
      holds exactly;
    - the module-level normalisation cache of [helper.ts] is an explicit
      map that the helpers take and return;
    - the [lastIndex] field of a global regular expression is a number that
      the scanning loops take and return; every helper assigns [0] to it
      before its first [exec], so nothing is carried from one call of a
      helper to the next, but inside [calculateSlicePositionHelper] the
      field does survive from one lookup to the next and is modelled so;
    - [String.prototype.normalize] is an operation of the JavaScript
      engine: it is a variable [NFC] of the section that needs it. *)

From Stdlib Require Import ZArith QArith Qabs Qround Lia Lqa String Ascii.
From stdpp Require Import base option list gmap.

Local Open Scope Z_scope.

(** ** JavaScript strings *)

Abbreviation code_unit := Z (only parsing).
Abbreviation jsstring := (list Z) (only parsing).

(** An ASCII literal as a JavaScript string. *)
Definition js (s : string) : jsstring :=
  List.map (fun a => Z.of_N (N_of_ascii a)) (list_ascii_of_string s).

Definition is_high_surrogate (c : code_unit) : bool :=
  (0xD800 <=? c) && (c <=? 0xDBFF).

Definition is_low_surrogate (c : code_unit) : bool :=
  (0xDC00 <=? c) && (c <=? 0xDFFF).

Definition code_point_of_pair (hi lo : code_unit) : Z :=
  0x10000 + (hi - 0xD800) * 0x400 + (lo - 0xDC00).

(** [CodePointAt] on the rest of a string: the code point that starts it and
    what follows that code point. A surrogate that is not part of a pair is a
    code point of its own. *)
Definition next_code_point (s : jsstring) : option (Z * jsstring) :=
  match s with
  | [] => None
  | a :: t =>
      match t with
      | b :: t' =>
          if is_high_surrogate a && is_low_surrogate b
          then Some (code_point_of_pair a b, t')
          else Some (a, t)
      | [] => Some (a, [])
      end
  end.

(** The string iterator behind [for (const char of s)]: one string per code
    point. *)
Fixpoint chars (s : jsstring) : list jsstring :=
  match s with
  | [] => []
  | a :: t =>
      match t with
      | b :: t' =>
          if is_high_surrogate a && is_low_surrogate b
          then [a; b] :: chars t'
          else [a] :: chars t
      | [] => [[a]]
      end
  end.

(** [s.slice(i, j)] for [0 <= i] and [0 <= j]. *)
Definition substring (i j : nat) (s : jsstring) : jsstring :=
  take (j - i) (drop i s).

(** [s.endsWith("\n")]. *)
Definition endsWith_newline (s : jsstring) : bool :=
  match last s with
  | Some c => c =? 10
  | None => false
  end.

(** [s.slice(0, -1)]. *)
Definition drop_last (s : jsstring) : jsstring := take (length s - 1) s.

(** White space and line terminators, as [String.prototype.trim] strips
    them. *)
Definition is_trim_space (c : code_unit) : bool :=
  ((9 <=? c) && (c <=? 13)) || (c =? 32) || (c =? 0xA0) || (c =? 0x1680)
  || ((0x2000 <=? c) && (c <=? 0x200A)) || (c =? 0x2028) || (c =? 0x2029)
  || (c =? 0x202F) || (c =? 0x205F) || (c =? 0x3000) || (c =? 0xFEFF).

Fixpoint trimStart (s : jsstring) : jsstring :=
  match s with
  | c :: t => if is_trim_space c then trimStart t else s
  | [] => []
  end.

Definition trim (s : jsstring) : jsstring :=
  reverse (trimStart (reverse (trimStart s))).

(** ** Unicode property tables

    [\p{Extended_Pictographic}] and [\p{Regional_Indicator}] are tables of
    the regular expression engine, not of this repository. The ranges below
    are those of the Unicode Character Database (emoji-data.txt and
    PropList.txt, version 14). *)

Definition Extended_Pictographic_ranges : list (Z * Z) :=
  [ (0xA9, 0xA9); (0xAE, 0xAE); (0x203C, 0x203C); (0x2049, 0x2049);
    (0x2122, 0x2122); (0x2139, 0x2139); (0x2194, 0x2199); (0x21A9, 0x21AA);
    (0x231A, 0x231B); (0x2328, 0x2328); (0x2388, 0x2388); (0x23CF, 0x23CF);
    (0x23E9, 0x23F3); (0x23F8, 0x23FA); (0x24C2, 0x24C2); (0x25AA, 0x25AB);
    (0x25B6, 0x25B6); (0x25C0, 0x25C0); (0x25FB, 0x25FE); (0x2600, 0x2605);
    (0x2607, 0x2612); (0x2614, 0x2685); (0x2690, 0x2705); (0x2708, 0x2712);
    (0x2714, 0x2714); (0x2716, 0x2716); (0x271D, 0x271D); (0x2721, 0x2721);
    (0x2728, 0x2728); (0x2733, 0x2734); (0x2744, 0x2744); (0x2747, 0x2747);
    (0x274C, 0x274C); (0x274E, 0x274E); (0x2753, 0x2755); (0x2757, 0x2757);
    (0x2763, 0x2767); (0x2795, 0x2797); (0x27A1, 0x27A1); (0x27B0, 0x27B0);
    (0x27BF, 0x27BF); (0x2934, 0x2935); (0x2B05, 0x2B07); (0x2B1B, 0x2B1C);
    (0x2B50, 0x2B50); (0x2B55, 0x2B55); (0x3030, 0x3030); (0x303D, 0x303D);
    (0x3297, 0x3297); (0x3299, 0x3299); (0x1F000, 0x1F0FF);
    (0x1F10D, 0x1F10F); (0x1F12F, 0x1F12F); (0x1F16C, 0x1F171);
    (0x1F17E, 0x1F17F); (0x1F18E, 0x1F18E); (0x1F191, 0x1F19A);
    (0x1F1AD, 0x1F1E5); (0x1F201, 0x1F20F); (0x1F21A, 0x1F21A);
    (0x1F22F, 0x1F22F); (0x1F232, 0x1F23A); (0x1F23C, 0x1F23F);
    (0x1F249, 0x1F3FA); (0x1F400, 0x1F53D); (0x1F546, 0x1F64F);
    (0x1F680, 0x1F6FF); (0x1F774, 0x1F77F); (0x1F7D5, 0x1F7FF);
    (0x1F80C, 0x1F80F); (0x1F848, 0x1F84F); (0x1F85A, 0x1F85F);
    (0x1F888, 0x1F88F); (0x1F8AE, 0x1F8FF); (0x1F90C, 0x1F93A);
    (0x1F93C, 0x1F945); (0x1F947, 0x1FAFF); (0x1FC00, 0x1FFFD) ].

Definition in_ranges (rs : list (Z * Z)) (c : Z) : bool :=
  existsb (fun r => (fst r <=? c) && (c <=? snd r)) rs.

Definition Extended_Pictographic (c : Z) : bool :=
  in_ranges Extended_Pictographic_ranges c.

Definition Regional_Indicator (c : Z) : bool :=
  (0x1F1E6 <=? c) && (c <=? 0x1F1FF).

(** ** The two regular expressions

    A pattern is embedded as the function that tries it at the start of a
    string and returns what is left after the match. None of the patterns
    below ever needs to backtrack: every optional or starred group is the
    last thing tried, so the greedy choice is the match. *)

Definition matcher := jsstring → option jsstring.

(** [\p{Extended_Pictographic}] *)
Definition eat_pictographic (s : jsstring) : option jsstring :=
  match next_code_point s with
  | Some (c, r) => if Extended_Pictographic c then Some r else None
  | None => None
  end.

(** [\p{Regional_Indicator}] *)
Definition eat_regional (s : jsstring) : option jsstring :=
  match next_code_point s with
  | Some (c, r) => if Regional_Indicator c then Some r else None
  | None => None
  end.

(** A literal character of the pattern that is one code unit, such as
    U+FE0F (variation selector 16) or U+200D (zero width joiner). *)
Definition eat_unit (u : code_unit) (s : jsstring) : option jsstring :=
  match s with
  | a :: r => if a =? u then Some r else None
  | [] => None
  end.

(** An optional U+FE0F, greedy. *)
Definition opt_FE0F (s : jsstring) : jsstring :=
  match eat_unit 0xFE0F s with
  | Some r => r
  | None => s
  end.

(** The starred group of [EMOJI_REGEX]: U+200D, then a pictographic code
    point, then an optional U+FE0F, any number of times. Every round consumes
    at least two code units, so [length s] rounds are enough. *)
Fixpoint zwj_tail (fuel : nat) (s : jsstring) : jsstring :=
  match fuel with
  | O => s
  | S fuel' =>
      match eat_unit 0x200D s with
      | Some r =>
          match eat_pictographic r with
          | Some r' => zwj_tail fuel' (opt_FE0F r')
          | None => s
          end
      | None => s
      end
  end.

(** [EMOJI_REGEX]: either a pictographic code point, an optional U+FE0F and
    the starred group above; or, when that fails, two regional indicators. *)
Definition EMOJI_REGEX : matcher := fun s =>
  match eat_pictographic s with
  | Some r => let r1 := opt_FE0F r in Some (zwj_tail (length r1) r1)
  | None =>
      match eat_regional s with
      | Some r => eat_regional r
      | None => None
      end
  end.

(** The starred group of [SIMPLE_EMOJI_REGEX]: either U+FE0F, or U+200D
    and a pictographic code point, any number of times. *)
Fixpoint simple_tail (fuel : nat) (s : jsstring) : jsstring :=
  match fuel with
  | O => s
  | S fuel' =>
      match eat_unit 0xFE0F s with
      | Some r => simple_tail fuel' r
      | None =>
          match eat_unit 0x200D s with
          | Some r =>
              match eat_pictographic r with
              | Some r' => simple_tail fuel' r'
              | None => s
              end
          | None => s
          end
      end
  end.

(** [SIMPLE_EMOJI_REGEX]: a pictographic code point and the starred group
    above. It has no alternative for regional indicators. *)
Definition SIMPLE_EMOJI_REGEX : matcher := fun s =>
  match eat_pictographic s with
  | Some r => Some (simple_tail (length r) r)
  | None => None
  end.

(** ** [RegExp.prototype.exec] on a global, unicode regular expression *)

Local Open Scope nat_scope.

(** The search of [exec]: try the pattern at index [i], where [s] is the
    string from [i] on; on failure go on to the next code point
    ([AdvanceStringIndex] with the [u] flag). The result is [match.index] and
    the end of the match. *)
Fixpoint find (m : matcher) (i : nat) (s : jsstring) {struct s}
  : option (nat * nat) :=
  match m s with
  | Some r => Some (i, i + (length s - length r))
  | None =>
      match s with
      | [] => None
      | a :: t =>
          match t with
          | b :: t' =>
              if is_high_surrogate a && is_low_surrogate b
              then find m (i + 2) t'
              else find m (i + 1) t
          | [] => find m (i + 1) t
          end
      end
  end.

(** [re.exec(str)] with [re.lastIndex = lastIndex]: [Some (index, e)] is a
    match at [index] that leaves [re.lastIndex = e]; [None] is [null], which
    leaves [re.lastIndex = 0]. *)
Definition exec (m : matcher) (str : jsstring) (lastIndex : nat)
  : option (nat * nat) :=
  if length str <? lastIndex then None
  else find m lastIndex (drop lastIndex str).

(** [while ((match = re.exec(str)) !== null) { body }]. The body gets the
    local variables, [match.index] and the new [re.lastIndex], and returns
    the local variables and whether it left the loop by [break]. The result
    carries the value of [re.lastIndex] at the exit: [0] after [null], the
    end of the last match after a [break]. *)
Fixpoint exec_loop {A : Type} (m : matcher) (str : jsstring)
    (body : A → nat → nat → A * bool) (fuel : nat) (lastIndex : nat) (a : A)
  : A * nat :=
  match fuel with
  | O => (a, lastIndex)
  | S fuel' =>
      match exec m str lastIndex with
      | None => (a, 0)
      | Some (idx, e) =>
          let '(a', brk) := body a idx e in
          if brk then (a', e) else exec_loop m str body fuel' e a'
      end
  end.

(** Every match is at least one code unit long, so the loop runs its body at
    most [length str] times. *)
Definition while_exec {A : Type} (m : matcher) (str : jsstring)
    (body : A → nat → nat → A * bool) (lastIndex : nat) (a : A) : A * nat :=
  exec_loop m str body (S (length str)) lastIndex a.

(** ** [visualSliceHelper] *)

(** The segmentation loop of [visualSliceHelper]: the local variables are
    [segments] and [lastIndex]. *)
Definition segments_body (text : jsstring)
    (st : list jsstring * nat) (index e : nat) : (list jsstring * nat) * bool :=
  let '(segments, lastIndex) := st in
  let segments :=
    if lastIndex <? index
    then segments ++ chars (substring lastIndex index text)
    else segments in
  ((segments ++ [substring index e text], e), false).

Definition segments_of (text : jsstring) : list jsstring :=
  let '((segments, lastIndex), _) :=
    while_exec SIMPLE_EMOJI_REGEX text (segments_body text) 0 ([], 0) in
  if lastIndex <? length text
  then segments ++ chars (drop lastIndex text)
  else segments.

Local Open Scope Z_scope.

(** [visualSliceHelper(text, start, end)]; [end_ = None] is an omitted (or
    [undefined]) end. [SIMPLE_EMOJI_REGEX.lastIndex] is set to [0] before the
    scan and is [0] after it, so the function does not depend on that field. *)
Definition visualSliceHelper (text : jsstring) (start : Z) (end_ : option Z)
  : jsstring :=
  match text with
  | [] => []
  | _ =>
      let segments := segments_of text in
      let totalLength := Z.of_nat (length segments) in
      if totalLength <=? start then []
      else
        let normalizedStart :=
          if start <? 0 then Z.max 0 (totalLength + start) else start in
        let normalizedEnd :=
          match end_ with
          | None => totalLength
          | Some e => if e <? 0 then Z.max 0 (totalLength + e) else e
          end in
        let normalizedStart := Z.max 0 (Z.min normalizedStart totalLength) in
        let normalizedEnd := Z.max 0 (Z.min normalizedEnd totalLength) in
        if normalizedEnd <=? normalizedStart then []
        else
          concat (take (Z.to_nat normalizedEnd - Z.to_nat normalizedStart)%nat
                    (drop (Z.to_nat normalizedStart) segments))
  end.


(** ** Character classes *)

Definition SHORT_CHARACTERS_list : list jsstring :=
  [ [0xED]; [0x1EC9]; [0x1ECB]; [0x1EC9]; [0xEC]; js "i"; js "t"; js "f";
    js "r"; js "l"; js "."; js ","; js "|"; js ":"; js ";"; js "'"; [34];
    js "!" ].

Definition SHORT_CHARACTERS : gset (list Z) := list_to_set SHORT_CHARACTERS_list.

Definition LONG_CHARACTERS_list : list jsstring :=
  [ js "m"; js "w"; js "M"; js "W" ].

Definition LONG_CHARACTERS : gset (list Z) := list_to_set LONG_CHARACTERS_list.

(** [set.has(x)] *)
Definition has (set : gset (list Z)) (x : jsstring) : bool :=
  bool_decide (x ∈ set).

(** The merged set that [countShortCharactersHelper], the slice position and
    the string width helpers build from the caller's list. *)
Definition allShortCharacters (customShortCharacters : list jsstring)
  : gset (list Z) :=
  if (0 <? length customShortCharacters)%nat
  then list_to_set (customShortCharacters ++ SHORT_CHARACTERS_list)
  else SHORT_CHARACTERS.

Definition allLongCharacters (customLongCharacters : list jsstring)
  : gset (list Z) :=
  if (0 <? length customLongCharacters)%nat
  then list_to_set (customLongCharacters ++ LONG_CHARACTERS_list)
  else LONG_CHARACTERS.

Definition countShortCharactersHelper (input : jsstring)
    (customShortCharacters : list jsstring) : nat :=
  let allShortCharacters := allShortCharacters customShortCharacters in
  length (filter (fun char => has allShortCharacters char = true) (chars input)).

Local Open Scope Q_scope.

(** The local function [getCharWidth] of the slice position and the string
    width helpers. *)
Definition getCharWidth (charWidth : Q) (allShort allLong : gset (list Z))
    (char : jsstring) : Q :=
  if bool_decide (char = js " ") then charWidth * 0.5
  else if has allShort char then charWidth * 0.5
  else if has allLong char then charWidth * 1.5
  else charWidth.

Definition balanceDiffHelper (numOfEmojis numOfShortCharacters
    numOfLongCharacters : Q) : Q :=
  numOfEmojis + 0.5 * numOfLongCharacters - 0.5 * numOfShortCharacters.

Local Open Scope nat_scope.

(** ** Helpers that normalise their input *)

Record VisualLength := {
  visualLength : nat;
  shortCharCount : nat;
  emojiCount : nat;
  longCharCount : nat
}.

(** The counting loop of [getVisualLengthHelper]: locals [visualLength],
    [emojiCount] and [lastIndex]. *)
Definition visual_length_body (st : nat * nat * nat) (index e : nat)
  : (nat * nat * nat) * bool :=
  let '(visualLength, emojiCount, lastIndex) := st in
  let visualLength :=
    if lastIndex <? index then visualLength + (index - lastIndex)
    else visualLength in
  ((visualLength + 1, emojiCount + 1, e), false).

(** [emojiPositions.has(i)] *)
Definition has_position (emojiPositions : gmap nat bool) (i : nat) : bool :=
  match emojiPositions !! i with
  | Some _ => true
  | None => false
  end.

(** The first pass of the monospaced slice position: locals [totalLength]
    and [lastIndex]. *)
Definition total_length_body (st : nat * nat) (index e : nat)
  : (nat * nat) * bool :=
  let '(totalLength, lastIndex) := st in
  let totalLength :=
    if lastIndex <? index then totalLength + (index - lastIndex)
    else totalLength in
  ((totalLength + 1, e), false).

(** Its second pass, which marks the emoji positions: locals
    [emojiPositions], [lastIndex] and [visualPos]. The inner loop
    [while (lastIndex < match.index) { visualPos++; lastIndex++; }] adds
    [match.index - lastIndex] to [visualPos]. *)
Definition mono_mark_body (st : gmap nat bool * nat * nat) (index e : nat)
  : (gmap nat bool * nat * nat) * bool :=
  let '(emojiPositions, lastIndex, visualPos) := st in
  let visualPos :=
    if lastIndex <? index then visualPos + (index - lastIndex)
    else visualPos in
  ((<[visualPos := true]> emojiPositions, e, visualPos + 1), false).

(** The marking loop of the proportional branch: locals
    [totalVisualLength], [emojiPositions], [lastIndex] and [visualPos]. Its
    inner loop [while (lastIndex < match.index)] adds
    [match.index - lastIndex] to each counter. *)
Definition mark_body (st : nat * gmap nat bool * nat * nat) (index e : nat)
  : (nat * gmap nat bool * nat * nat) * bool :=
  let '(totalVisualLength, emojiPositions, lastIndex, visualPos) := st in
  let regular := if lastIndex <? index then index - lastIndex else 0 in
  let totalVisualLength := totalVisualLength + regular in
  let visualPos := visualPos + regular in
  ((totalVisualLength + 1, <[visualPos := true]> emojiPositions, e,
    visualPos + 1), false).

(** The inner loops of the character lookups,
    [while (lastIndex < bound && currentVisualPos <= i)
       { if (currentVisualPos === i) { charIndex = lastIndex; break; }
         currentVisualPos++; lastIndex++; }],
    run with [n = bound - lastIndex]. *)
Fixpoint walk (n i lastIndex currentVisualPos charIndex : nat)
  : nat * nat * nat :=
  match n with
  | O => (lastIndex, currentVisualPos, charIndex)
  | S n' =>
      if currentVisualPos <=? i then
        if currentVisualPos =? i then (lastIndex, currentVisualPos, lastIndex)
        else walk n' i (lastIndex + 1) (currentVisualPos + 1) charIndex
      else (lastIndex, currentVisualPos, charIndex)
  end.

(** The lookup of the character at visual position [i] in the proportional
    scan (the [else] branch that computes [width]). It assigns [0] to the
    local [lastIndex] but not to [EMOJI_REGEX.lastIndex], so its first [exec]
    starts from [re], the value the previous lookup left. Result: [charIndex]
    and the value it leaves in [EMOJI_REGEX.lastIndex]. *)
Definition width_lookup_body (i : nat) (st : nat * nat * nat) (index e : nat)
  : (nat * nat * nat) * bool :=
  let '(charIndex, currentVisualPos, lastIndex) := st in
  let '(lastIndex, currentVisualPos, charIndex) :=
    walk (index - lastIndex) i lastIndex currentVisualPos charIndex in
  if currentVisualPos =? i then ((lastIndex, currentVisualPos, lastIndex), true)
  else ((charIndex, currentVisualPos + 1, e), false).

Definition width_char_index (normalized : jsstring) (i re : nat) : nat * nat :=
  let '((charIndex, currentVisualPos, lastIndex), re) :=
    while_exec EMOJI_REGEX normalized (width_lookup_body i) re (0, 0, 0) in
  let '(_, _, charIndex) :=
    walk (length normalized - lastIndex) i lastIndex currentVisualPos
      charIndex in
  (charIndex, re).

(** The lookup of the character before the cut in the proportional scan;
    this one does assign [0] to [EMOJI_REGEX.lastIndex] first. *)
Definition space_lookup_body (p : nat) (st : nat * nat * nat) (index e : nat)
  : (nat * nat * nat) * bool :=
  let '(charIndex, currentVisualPos, lastIndex) := st in
  let '(lastIndex, currentVisualPos, charIndex) :=
    walk (index - lastIndex) p lastIndex currentVisualPos charIndex in
  if currentVisualPos =? p then ((charIndex, currentVisualPos, lastIndex), true)
  else ((charIndex, currentVisualPos + 1, e), false).

Definition space_char_index (normalized : jsstring) (p : nat) : nat :=
  let '((charIndex, currentVisualPos, lastIndex), _) :=
    while_exec EMOJI_REGEX normalized (space_lookup_body p) 0 (0, 0, 0) in
  let '(_, _, charIndex) :=
    walk (length normalized - lastIndex) p lastIndex currentVisualPos
      charIndex in
  charIndex.

(** The lookup of the character before the cut in the monospaced scan:
    locals [charIndex], [visualIndex] and [lastIndex]; [p] is [i - 1]. There
    [visualIndex <= p] whenever [p - visualIndex] is computed. Nothing
    follows the loop: after the last match [charIndex] is its end. *)
Definition mono_lookup_body (p : nat) (st : nat * nat * nat) (index e : nat)
  : (nat * nat * nat) * bool :=
  let '(charIndex, visualIndex, lastIndex) := st in
  let regularChars := index - lastIndex in
  if (lastIndex <? index) && (p <? visualIndex + regularChars)
  then ((lastIndex + (p - visualIndex), visualIndex, lastIndex), true)
  else
    let '(charIndex, visualIndex) :=
      if lastIndex <? index then (index, visualIndex + regularChars)
      else (charIndex, visualIndex) in
    if visualIndex =? p then ((index, visualIndex, lastIndex), true)
    else ((e, visualIndex + 1, e), false).

Definition mono_char_index (normalized : jsstring) (p : nat) : nat :=
  let '((charIndex, _, _), _) :=
    while_exec EMOJI_REGEX normalized (mono_lookup_body p) 0 (0, 0, 0) in
  charIndex.

(** [normalized[charIndex] === " "] *)
Definition is_space_at (normalized : jsstring) (charIndex : nat) : bool :=
  match normalized !! charIndex with
  | Some c => (c =? 32)%Z
  | None => false
  end.

(** [normalized[charIndex] || ""] *)
Definition char_at_or_empty (normalized : jsstring) (charIndex : nat)
  : jsstring :=
  match normalized !! charIndex with
  | Some c => [c]
  | None => []
  end.

Section Scans.

Variables (normalized : jsstring) (charWidth targetWidth : Q).

(** The [for (let i = totalLength - 1; i >= 0; i--)] loop of the
    monospaced branch, at [i = n - 1]; it ends at [n = 0]. *)
Fixpoint mono_scan (emojiPositions : gmap nat bool) (totalLength : nat)
    (n : nat) (accumulatedWidth : Q) (slicePosition : nat) : Z :=
  match n with
  | O => - Z.of_nat totalLength
  | S i =>
      let isEmoji := has_position emojiPositions i in
      let accumulatedWidth :=
        (accumulatedWidth + (if isEmoji then charWidth * 2 else charWidth))%Q in
      let slicePosition := slicePosition + 1 in
      if Qle_bool targetWidth accumulatedWidth then
        let slicePosition :=
          if (0 <? i) && negb (has_position emojiPositions (i - 1)) then
            let charIndex := mono_char_index normalized (i - 1) in
            if (charIndex <? length normalized)
               && is_space_at normalized charIndex
            then slicePosition + 1 else slicePosition
          else slicePosition in
        - Z.of_nat slicePosition
      else mono_scan emojiPositions totalLength i accumulatedWidth
             slicePosition
  end.

Definition slice_position_monospaced : Z :=
  let '((totalLength, lastIndex), _) :=
    while_exec EMOJI_REGEX normalized total_length_body 0 (0, 0) in
  let totalLength :=
    if lastIndex <? length normalized
    then totalLength + (length normalized - lastIndex) else totalLength in
  let '((emojiPositions, _, _), _) :=
    while_exec EMOJI_REGEX normalized mono_mark_body 0 (∅, 0, 0) in
  mono_scan emojiPositions totalLength totalLength 0%Q 0.

Variables (allShort allLong : gset (list Z)).

(** The [for (let i = totalVisualLength - 1; i >= 0; i--)] loop of the
    proportional branch, at [i = n - 1]; [re] is [EMOJI_REGEX.lastIndex]. *)
Fixpoint prop_scan (emojiPositions : gmap nat bool) (totalVisualLength : nat)
    (n : nat) (accumulatedWidth : Q) (slicePosition : nat) (re : nat) : Z :=
  match n with
  | O => - Z.of_nat totalVisualLength
  | S i =>
      let '(width, re) :=
        if has_position emojiPositions i then ((charWidth * 2)%Q, re)
        else
          let '(charIndex, re) := width_char_index normalized i re in
          (getCharWidth charWidth allShort allLong
             (char_at_or_empty normalized charIndex), re) in
      let accumulatedWidth := (accumulatedWidth + width)%Q in
      let slicePosition := slicePosition + 1 in
      if Qle_bool targetWidth accumulatedWidth then
        let slicePosition :=
          if (0 <? i) && negb (has_position emojiPositions (i - 1)) then
            let charIndex := space_char_index normalized (i - 1) in
            if is_space_at normalized charIndex
            then slicePosition + 1 else slicePosition
          else slicePosition in
        - Z.of_nat slicePosition
      else prop_scan emojiPositions totalVisualLength i accumulatedWidth
             slicePosition re
  end.

Definition slice_position_proportional : Z :=
  let '((totalVisualLength, emojiPositions, lastIndex, _), _) :=
    while_exec EMOJI_REGEX normalized mark_body 0 (0, ∅, 0, 0) in
  let totalVisualLength :=
    if lastIndex <? length normalized
    then totalVisualLength + (length normalized - lastIndex)
    else totalVisualLength in
  prop_scan emojiPositions totalVisualLength totalVisualLength 0%Q 0 0.

End Scans.

(** The width of the run of non-emoji code units [normalized[i]],
    [from <= i < to], in the proportional branch of
    [calculateStringWidthHelper]. *)
Definition regular_width (charWidth : Q) (allShort allLong : gset (list Z))
    (normalized : jsstring) (from to : nat) (totalWidth : Q) : Q :=
  foldl (fun totalWidth c =>
           (totalWidth + getCharWidth charWidth allShort allLong [c])%Q)
    totalWidth (substring from to normalized).

(** The loops of [calculateStringWidthHelper]: locals [totalWidth] and
    [lastIndex]. *)
Definition mono_width_body (charWidth : Q) (st : Q * nat) (index e : nat)
  : (Q * nat) * bool :=
  let '(totalWidth, lastIndex) := st in
  let totalWidth :=
    if lastIndex <? index
    then (totalWidth + inject_Z (Z.of_nat (index - lastIndex)) * charWidth)%Q
    else totalWidth in
  (((totalWidth + charWidth * 2)%Q, e), false).

Definition prop_width_body (charWidth : Q) (allShort allLong : gset (list Z))
    (normalized : jsstring) (st : Q * nat) (index e : nat) : (Q * nat) * bool :=
  let '(totalWidth, lastIndex) := st in
  let totalWidth :=
    if lastIndex <? index
    then regular_width charWidth allShort allLong normalized lastIndex index
           totalWidth
    else totalWidth in
  (((totalWidth + charWidth * 2)%Q, e), false).

Definition string_width (normalized : jsstring) (charWidth : Q)
    (isMonospaced : bool) (allShort allLong : gset (list Z)) : Q :=
  if isMonospaced then
    let '((totalWidth, lastIndex), _) :=
      while_exec EMOJI_REGEX normalized (mono_width_body charWidth) 0
        (0%Q, 0) in
    if lastIndex <? length normalized
    then (totalWidth
          + inject_Z (Z.of_nat (length normalized - lastIndex)) * charWidth)%Q
    else totalWidth
  else
    let '((totalWidth, lastIndex), _) :=
      while_exec EMOJI_REGEX normalized
        (prop_width_body charWidth allShort allLong normalized) 0 (0%Q, 0) in
    if lastIndex <? length normalized
    then regular_width charWidth allShort allLong normalized lastIndex
           (length normalized) totalWidth
    else totalWidth.

Section Normalizing.

(** [text.normalize("NFC")] *)
Variable NFC : jsstring → jsstring.

(** [getNormalizedString]; the cache [normalizeCache] is threaded. *)
Definition getNormalizedString (text : jsstring)
    (normalizeCache : gmap (list Z) (list Z))
  : jsstring * gmap (list Z) (list Z) :=
  match normalizeCache !! text with
  | Some cached => (cached, normalizeCache)
  | None =>
      let normalized := NFC text in
      let normalizeCache :=
        if 1000 <? size normalizeCache then ∅ else normalizeCache in
      (normalized, <[text := normalized]> normalizeCache)
  end.

Definition getVisualLengthHelper (text : jsstring)
    (customShortCharacters customLongCharacters : list jsstring)
    (normalizeCache : gmap (list Z) (list Z))
  : VisualLength * gmap (list Z) (list Z) :=
  match text with
  | [] =>
      ({| visualLength := 0; shortCharCount := 0; emojiCount := 0;
          longCharCount := 0 |}, normalizeCache)
  | _ =>
      let '(normalized, normalizeCache) :=
        getNormalizedString text normalizeCache in
      let '((visualLength, emojiCount, lastIndex), _) :=
        while_exec EMOJI_REGEX normalized visual_length_body 0 (0, 0, 0) in
      let visualLength :=
        if lastIndex <? length normalized
        then visualLength + (length normalized - lastIndex)
        else visualLength in
      let shortCharCount :=
        countShortCharactersHelper text customShortCharacters in
      let customLongSet : option (gset (list Z)) :=
        if 0 <? length customLongCharacters
        then Some (list_to_set customLongCharacters) else None in
      let longCharCount :=
        length (filter (fun char =>
                  (match customLongSet with
                   | Some set => has set char
                   | None => false
                   end || has LONG_CHARACTERS char) = true) (chars text)) in
      ({| visualLength := visualLength; shortCharCount := shortCharCount;
          emojiCount := emojiCount; longCharCount := longCharCount |},
       normalizeCache)
  end.

(** The result is [-n], the argument of a later [slice]: [n] units are to
    be dropped from the end. *)
Definition calculateSlicePositionHelper (text : jsstring)
    (charWidth targetWidth : Q) (isMonospaced : bool)
    (customShortCharacters customLongCharacters : list jsstring)
    (normalizeCache : gmap (list Z) (list Z))
  : Z * gmap (list Z) (list Z) :=
  if bool_decide (text = []) || Qle_bool targetWidth 0
  then (0%Z, normalizeCache)
  else
    let '(normalized, normalizeCache) :=
      getNormalizedString text normalizeCache in
    if isMonospaced
    then (slice_position_monospaced normalized charWidth targetWidth,
          normalizeCache)
    else (slice_position_proportional normalized charWidth targetWidth
            (allShortCharacters customShortCharacters)
            (allLongCharacters customLongCharacters),
          normalizeCache).

Definition calculateStringWidthHelper (text : jsstring) (charWidth : Q)
    (isMonospaced : bool)
    (customShortCharacters customLongCharacters : list jsstring)
    (normalizeCache : gmap (list Z) (list Z))
  : Q * gmap (list Z) (list Z) :=
  match text with
  | [] => (0%Q, normalizeCache)
  | _ =>
      let '(normalized, normalizeCache) :=
        getNormalizedString text normalizeCache in
      (string_width normalized charWidth isMonospaced
         (allShortCharacters customShortCharacters)
         (allLongCharacters customLongCharacters),
       normalizeCache)
  end.

End Normalizing.

(** ** The component: [calculateTruncatedText] and what drives it *)

Record TextLayoutLine := {
  line_text : jsstring;   (* [text] *)
  line_width : Q          (* [width] *)
}.

Record Props := {
  numberOfLines : nat;
  children : jsstring;
  readMoreText : option jsstring;
  compensationSpaceAndroid : Q;
  isMonospaced : bool;
  shortWidthCharacters : list jsstring;
  longWidthCharacters : list jsstring
}.

(** The state and the refs of one mounted component. *)
Record Component := {
  isNeedReadMore : bool;
  renderTrigger : bool;
  isShowingFullTextRef : bool;
  fullTextRef : jsstring;
  truncatedTextRef : jsstring;
  containerWidthRef : Q;
  textLinesRef : list TextLayoutLine;
  isCalculationCompleteRef : bool;
  hasPropsChangedRef : bool;
  oldChildren : jsstring
}.

(** [lines[i]] for a number [i] that may be [-1]. *)
Definition line_at (lines : list TextLayoutLine) (i : Z)
  : option TextLayoutLine :=
  if (i <? 0)%Z then None else lines !! Z.to_nat i.

(** [x || dflt] for a string. *)
Definition or_string (x : option jsstring) (dflt : jsstring) : jsstring :=
  match x with
  | Some (c :: t) => c :: t
  | _ => dflt
  end.

(** [x || 1] for a number. *)
Definition or_one (x : Q) : Q := if Qeq_bool x 0 then 1%Q else x.

Definition readMoreTextContent (props : Props) : jsstring :=
  js "... " ++ trim (or_string (readMoreText props) (js "Show more")).

(** [lastRow]: the line at [numberOfLines - 1], when there are that many. *)
Definition lastRow (props : Props) (lines : list TextLayoutLine)
  : option TextLayoutLine :=
  if numberOfLines props <=? length lines
  then line_at lines (Z.of_nat (numberOfLines props) - 1)
  else None.

Definition lastRowForWidthCalc (props : Props) (lines : list TextLayoutLine)
  : jsstring :=
  match lastRow props lines with
  | Some row =>
      if endsWith_newline (line_text row) then drop_last (line_text row)
      else line_text row
  | None => []
  end.

Definition nat_to_Q (n : nat) : Q := inject_Z (Z.of_nat n).

(** The balance of the last row's counts. *)
Definition balance_of (lastRowVisualLength : VisualLength) : Q :=
  balanceDiffHelper (nat_to_Q (emojiCount lastRowVisualLength))
    (nat_to_Q (shortCharCount lastRowVisualLength))
    (nat_to_Q (longCharCount lastRowVisualLength)).

(** [avgCharWidth] as it stands after the balance adjustment;
    [lastRow_width] is [lastRow?.width || 0]. *)
Definition avgCharWidth_of (lastRow_width : Q)
    (lastRowVisualLength : VisualLength) : Q :=
  let avgCharWidth :=
    if 0 <? visualLength lastRowVisualLength
    then (lastRow_width / nat_to_Q (visualLength lastRowVisualLength))%Q
    else 0%Q in
  let balance := balance_of lastRowVisualLength in
  if Qeq_bool balance 0 then avgCharWidth
  else
    (avgCharWidth
     * (if negb (Qle_bool 0 balance)
        then 1 + Qabs balance / nat_to_Q (visualLength lastRowVisualLength)
        else 1 - Qabs balance / nat_to_Q (visualLength lastRowVisualLength)))%Q.

Section Component.

Variable NFC : jsstring → jsstring.

(** The arguments of the one call of [calculateSlicePositionHelper]:
    [text], [charWidth] and [targetWidth]. *)
Definition slice_call_arguments (props : Props) (lines : list TextLayoutLine)
    (lastRowVisualLength : VisualLength) (readMoreTextLength : Q)
  : jsstring * Q * Q :=
  let avgCharWidth :=
    avgCharWidth_of
      (match lastRow props lines with
       | Some row => line_width row
       | None => 0%Q
       end) lastRowVisualLength in
  (lastRowForWidthCalc props lines, avgCharWidth,
   (readMoreTextLength + compensationSpaceAndroid props * avgCharWidth)%Q).

(** The branch of [calculateTruncatedText] taken when there are more lines
    than [numberOfLines]: the text it stores in [truncatedTextRef]. [None]
    is the [TypeError] of reading [width] of [undefined]. *)
Definition truncatedText (props : Props) (lines : list TextLayoutLine)
    (containerWidth : Q) (normalizeCache : gmap (list Z) (list Z))
  : option (jsstring * gmap (list Z) (list Z)) :=
  let visibleText :=
    concat (line_text <$> take (numberOfLines props) lines) in
  let '(lastRowVisualLength, normalizeCache) :=
    getVisualLengthHelper NFC (lastRowForWidthCalc props lines)
      (shortWidthCharacters props) (longWidthCharacters props)
      normalizeCache in
  match line_at lines (Z.of_nat (numberOfLines props) - 1) with
  | None => None
  | Some row =>
      let lastLineWidth := line_width row in
      let avgCharWidth :=
        avgCharWidth_of
          (match lastRow props lines with
           | Some row => line_width row
           | None => 0%Q
           end) lastRowVisualLength in
      let '(readMoreTextLength, normalizeCache) :=
        calculateStringWidthHelper NFC (readMoreTextContent props)
          (or_one avgCharWidth) (isMonospaced props)
          (shortWidthCharacters props) (longWidthCharacters props)
          normalizeCache in
      let targetLastLineWidth := (containerWidth - readMoreTextLength)%Q in
      let visibleText :=
        if endsWith_newline visibleText then drop_last visibleText
        else visibleText in
      let '(sliceEndOffset, normalizeCache) :=
        if Qle_bool lastLineWidth targetLastLineWidth
        then (None, normalizeCache)
        else
          let '(text, charWidth, targetWidth) :=
            slice_call_arguments props lines lastRowVisualLength
              readMoreTextLength in
          let '(position, normalizeCache) :=
            calculateSlicePositionHelper NFC text charWidth targetWidth
              (isMonospaced props) (shortWidthCharacters props)
              (longWidthCharacters props) normalizeCache in
          (Some position, normalizeCache) in
      let end_ :=
        match sliceEndOffset with
        | Some position => if (position =? 0)%Z then None else Some position
        | None => None
        end in
      Some (trim (visualSliceHelper visibleText 0 end_), normalizeCache)
  end.

Definition calculateTruncatedText (props : Props) (c : Component)
    (normalizeCache : gmap (list Z) (list Z))
  : option (Component * gmap (list Z) (list Z)) :=
  if (length (textLinesRef c) =? 0) || Qeq_bool (containerWidthRef c) 0
  then Some (c, normalizeCache)
  else if numberOfLines props <? length (textLinesRef c) then
    match truncatedText props (textLinesRef c) (containerWidthRef c)
            normalizeCache with
    | None => None
    | Some (truncated, normalizeCache) =>
        Some ({| isNeedReadMore := true;
                 renderTrigger := negb (renderTrigger c);
                 isShowingFullTextRef := isShowingFullTextRef c;
                 fullTextRef := truncated;
                 truncatedTextRef := truncated;
                 containerWidthRef := containerWidthRef c;
                 textLinesRef := textLinesRef c;
                 isCalculationCompleteRef := true;
                 hasPropsChangedRef := false;
                 oldChildren := oldChildren c |}, normalizeCache)
    end
  else
    Some ({| isNeedReadMore := false;
             renderTrigger := negb (renderTrigger c);
             isShowingFullTextRef := isShowingFullTextRef c;
             fullTextRef := fullTextRef c;
             truncatedTextRef := truncatedTextRef c;
             containerWidthRef := containerWidthRef c;
             textLinesRef := textLinesRef c;
             isCalculationCompleteRef := true;
             hasPropsChangedRef := false;
             oldChildren := oldChildren c |}, normalizeCache).

(** [onTextLayoutHandler] with the lines of the event, and
    [onContainerLayout] with the width of the event ([|| 0] leaves a width
    as it is): each stores what it is given and runs
    [calculateTruncatedText], unless the calculation is complete. *)
Definition onTextLayoutHandler (props : Props) (lines : list TextLayoutLine)
    (c : Component) (normalizeCache : gmap (list Z) (list Z))
  : option (Component * gmap (list Z) (list Z)) :=
  if isCalculationCompleteRef c then Some (c, normalizeCache)
  else
    calculateTruncatedText props
      {| isNeedReadMore := isNeedReadMore c; renderTrigger := renderTrigger c;
         isShowingFullTextRef := isShowingFullTextRef c;
         fullTextRef := fullTextRef c; truncatedTextRef := truncatedTextRef c;
         containerWidthRef := containerWidthRef c; textLinesRef := lines;
         isCalculationCompleteRef := isCalculationCompleteRef c;
         hasPropsChangedRef := hasPropsChangedRef c;
         oldChildren := oldChildren c |} normalizeCache.

Definition onContainerLayout (props : Props) (width : Q)
    (c : Component) (normalizeCache : gmap (list Z) (list Z))
  : option (Component * gmap (list Z) (list Z)) :=
  if isCalculationCompleteRef c then Some (c, normalizeCache)
  else
    calculateTruncatedText props
      {| isNeedReadMore := isNeedReadMore c; renderTrigger := renderTrigger c;
         isShowingFullTextRef := isShowingFullTextRef c;
         fullTextRef := fullTextRef c; truncatedTextRef := truncatedTextRef c;
         containerWidthRef := width; textLinesRef := textLinesRef c;
         isCalculationCompleteRef := isCalculationCompleteRef c;
         hasPropsChangedRef := hasPropsChangedRef c;
         oldChildren := oldChildren c |} normalizeCache.

End Component.


(** The first render of a component: [useState] and [useRef] initial
    values. *)
Definition mount (props : Props) : Component :=
  {| isNeedReadMore := false; renderTrigger := false;
     isShowingFullTextRef := false; fullTextRef := children props;
     truncatedTextRef := children props; containerWidthRef := 0%Q;
     textLinesRef := []; isCalculationCompleteRef := false;
     hasPropsChangedRef := false; oldChildren := children props |}.

(** The body of the layout effect that runs when [children], [style] or
    [numberOfLines] change. *)
Definition layoutEffect (props : Props) (c : Component) : Component :=
  {| isNeedReadMore := isNeedReadMore c; renderTrigger := renderTrigger c;
     isShowingFullTextRef := false; fullTextRef := children props;
     truncatedTextRef := truncatedTextRef c;
     containerWidthRef := containerWidthRef c; textLinesRef := [];
     isCalculationCompleteRef := isCalculationCompleteRef c;
     hasPropsChangedRef := true; oldChildren := children props |}.

(** The cleanup of that effect, which runs before the effect runs again. *)
Definition layoutEffect_cleanup (c : Component) : Component :=
  {| isNeedReadMore := isNeedReadMore c; renderTrigger := renderTrigger c;
     isShowingFullTextRef := isShowingFullTextRef c;
     fullTextRef := fullTextRef c; truncatedTextRef := truncatedTextRef c;
     containerWidthRef := containerWidthRef c;
     textLinesRef := textLinesRef c; isCalculationCompleteRef := false;
     hasPropsChangedRef := hasPropsChangedRef c;
     oldChildren := oldChildren c |}.

(** The string the component renders before the affordance:
    [isNeedTrigger ? children : fullTextRef.current]. *)
Definition displayText (props : Props) (c : Component) : jsstring :=
  if bool_decide (oldChildren c ≠ children props) then children props
  else fullTextRef c.

(** The line-count test of the first revision of [calculateTruncatedText]
    kept in the same file (and of the iOS variant): it used [>=] where the
    current revision uses [>]. *)
Definition first_revision_line_test (numberOfLines : nat)
    (lines : list TextLayoutLine) : bool :=
  numberOfLines <=? length lines.

(** The first revision of [calculateTruncatedText] as a whole
    (rnShowMoreText.tsx, lines 118 to 193; the body of
    rnShowMoreText.ios.tsx, lines 117 to 192, is the same with its own
    compensation property). It has no helpers and no cache: the width of a
    character is the mean, over the visible lines, of a line's width over
    its length in code units. A run returns, or throws the [TypeError] of
    reading [width] of [undefined], or divides by zero; the numbers after a
    division by zero are [Infinity] or [NaN], which the rationals do not
    have, and the run is not followed further. *)
Inductive Outcome :=
| Returned (c : Component)
| ThrowsTypeError
| NotFinite.

(** [s.slice(0, end)] for an integer [end]. *)
Definition slice_to (s : jsstring) (end_ : Z) : jsstring :=
  if (end_ <? 0)%Z
  then take (Z.to_nat (Z.max 0 (Z.of_nat (length s) + end_))) s
  else take (Z.to_nat end_) s.

(** [(readMoreText || "Show more").length + compensationSpaceAndroid]. *)
Definition first_revision_readMoreTextLength (props : Props) : Q :=
  (nat_to_Q (length (or_string (readMoreText props) (js "Show more")))
   + compensationSpaceAndroid props)%Q.

(** [characterWidthsByLine] after the loop over the visible lines. *)
Fixpoint first_revision_characterWidthsByLine (lines : list TextLayoutLine)
  : option (list Q) :=
  match lines with
  | [] => Some []
  | line :: rest =>
      let textWithoutNewline :=
        if endsWith_newline (line_text line) then drop_last (line_text line)
        else line_text line in
      if length textWithoutNewline =? 0 then None
      else
        match first_revision_characterWidthsByLine rest with
        | Some widths =>
            Some ((line_width line / nat_to_Q (length textWithoutNewline))%Q
                  :: widths)
        | None => None
        end
  end.

Definition first_revision_calculateTruncatedText (props : Props)
    (c : Component) : Outcome :=
  if (length (textLinesRef c) =? 0) || Qeq_bool (containerWidthRef c) 0
  then Returned c
  else if first_revision_line_test (numberOfLines props) (textLinesRef c) then
    let visibleText :=
      concat (line_text <$> take (numberOfLines props) (textLinesRef c)) in
    match line_at (textLinesRef c) (Z.of_nat (numberOfLines props) - 1) with
    | None => ThrowsTypeError
    | Some row =>
        match first_revision_characterWidthsByLine
                (take (numberOfLines props) (textLinesRef c)) with
        | None => NotFinite
        | Some characterWidthsByLine =>
            let averageCharacterWidth :=
              (foldl Qplus 0 characterWidthsByLine
               / nat_to_Q (length characterWidthsByLine))%Q in
            let lastLineWidth := line_width row in
            let targetLastLineWidth :=
              (containerWidthRef c
               - averageCharacterWidth
                 * first_revision_readMoreTextLength props)%Q in
            let visibleText :=
              if endsWith_newline visibleText then drop_last visibleText
              else visibleText in
            let sliced :=
              if Qle_bool lastLineWidth targetLastLineWidth
              then Some visibleText
              else if Qeq_bool averageCharacterWidth 0 then None
              else
                Some (slice_to visibleText
                        (- Qceiling ((lastLineWidth - targetLastLineWidth)
                                     / averageCharacterWidth))) in
            match sliced with
            | None => NotFinite
            | Some kept =>
                let truncated := trim kept ++ js "... " in
                Returned {| isNeedReadMore := true;
                            renderTrigger := negb (renderTrigger c);
                            isShowingFullTextRef := isShowingFullTextRef c;
                            fullTextRef := truncated;
                            truncatedTextRef := truncated;
                            containerWidthRef := containerWidthRef c;
                            textLinesRef := textLinesRef c;
                            isCalculationCompleteRef := true;
                            hasPropsChangedRef := false;
                            oldChildren := oldChildren c |}
            end
        end
    end
  else
    Returned {| isNeedReadMore := false;
                renderTrigger := negb (renderTrigger c);
                isShowingFullTextRef := isShowingFullTextRef c;
                fullTextRef := fullTextRef c;
                truncatedTextRef := truncatedTextRef c;
                containerWidthRef := containerWidthRef c;
                textLinesRef := textLinesRef c;
                isCalculationCompleteRef := true;
                hasPropsChangedRef := false;
                oldChildren := oldChildren c |}.

(** What the first revision renders before the affordance:
    [fullTextRef.current]. *)
Definition first_revision_displayText (c : Component) : jsstring :=
  fullTextRef c.

(** [toggleTextExpansion]: the press on the affordance. The call of the
    caller's own [onPress] is outside the component and is left out. *)
Definition toggleTextExpansion (props : Props) (c : Component) : Component :=
  if isShowingFullTextRef c then
    {| isNeedReadMore := isNeedReadMore c;
       renderTrigger := negb (renderTrigger c);
       isShowingFullTextRef := false;
       fullTextRef := truncatedTextRef c;
       truncatedTextRef := truncatedTextRef c;
       containerWidthRef := containerWidthRef c;
       textLinesRef := textLinesRef c;
       isCalculationCompleteRef := isCalculationCompleteRef c;
       hasPropsChangedRef := hasPropsChangedRef c;
       oldChildren := oldChildren c |}
  else
    {| isNeedReadMore := isNeedReadMore c;
       renderTrigger := negb (renderTrigger c);
       isShowingFullTextRef := true;
       fullTextRef := children props;
       truncatedTextRef := truncatedTextRef c;
       containerWidthRef := containerWidthRef c;
       textLinesRef := textLinesRef c;
       isCalculationCompleteRef := isCalculationCompleteRef c;
       hasPropsChangedRef := hasPropsChangedRef c;
       oldChildren := oldChildren c |}.

(** The text of the lines that stay visible, as [calculateTruncatedText]
    joins it before it strips the last line break. *)
Definition visibleText_of (props : Props) (lines : list TextLayoutLine)
  : jsstring :=
  concat (line_text <$> take (numberOfLines props) lines).

(** ** Notions used in the statements *)

(** What a pattern leaves is a proper end of what it was given. *)
Definition consumes (s r : jsstring) : Prop :=
  r `suffix_of` s ∧ length r < length s.

Definition matcher_ok (m : matcher) : Prop :=
  ∀ s r, m s = Some r → consumes s r.

(** What the segmentation loop keeps true: the segments collected so far,
    joined, are the text up to [lastIndex]. *)
Definition segments_inv (text : jsstring) (re : nat)
    (st : list jsstring * nat) : Prop :=
  st.2 = re ∧ re ≤ length text ∧ concat st.1 = take re text.

(** The flag of the United States: two regional indicators, U+1F1FA and
    U+1F1F8, each a surrogate pair. *)
Definition flag_US : jsstring := [0xD83C; 0xDDFA; 0xD83C; 0xDDF8]%Z.

(** Every entry of the cache is the normal form of its key. *)
Definition cache_consistent (NFC : jsstring → jsstring)
    (normalizeCache : gmap (list Z) (list Z)) : Prop :=
  ∀ text cached, normalizeCache !! text = Some cached → cached = NFC text.

(** The cache is private to [helper.ts] and only [getNormalizedString]
    writes to it, so the states it can be in are those that follow the
    empty one after some sequence of requests. *)
Definition cache_after (NFC : jsstring → jsstring) (requests : list jsstring)
  : gmap (list Z) (list Z) :=
  foldl (fun normalizeCache text =>
           (getNormalizedString NFC text normalizeCache).2) ∅ requests.

(** U+1D4B3, MATHEMATICAL SCRIPT CAPITAL X: one code point outside the BMP,
    not an emoji. *)
Definition script_capital_X : jsstring := [0xD835; 0xDCB3]%Z.

(** A visual unit of a normalised string: an emoji match or one code unit
    between matches. *)
Inductive visual_unit :=
| EmojiUnit
| CharUnit (c : code_unit).

#[global] Instance visual_unit_eq_dec : EqDecision visual_unit :=
  ltac:(solve_decision).




(** A text of one line that fits a limit of one line, and the component
    once the host has reported that line and the width of the container. *)
Definition one_line_props : Props :=
  {| numberOfLines := 1; children := js "abc"; readMoreText := None;
     compensationSpaceAndroid := 7; isMonospaced := false;
     shortWidthCharacters := []; longWidthCharacters := [] |}.

Definition one_line_measured : Component :=
  {| isNeedReadMore := false; renderTrigger := false;
     isShowingFullTextRef := false; fullTextRef := js "abc";
     truncatedTextRef := js "abc"; containerWidthRef := 300;
     textLinesRef := [ {| line_text := js "abc"; line_width := 30 |} ];
     isCalculationCompleteRef := false; hasPropsChangedRef := true;
     oldChildren := js "abc" |}.

Definition visual_units_body (normalized : jsstring)
    (st : list visual_unit * nat) (index e : nat)
  : (list visual_unit * nat) * bool :=
  let '(units, lastIndex) := st in
  ((units ++ (CharUnit <$> substring lastIndex index normalized)
      ++ [EmojiUnit], e), false).

Definition visual_units (normalized : jsstring) : list visual_unit :=
  let '((units, lastIndex), _) :=
    while_exec EMOJI_REGEX normalized (visual_units_body normalized) 0
      ([], 0) in
  units ++ (CharUnit <$> drop lastIndex normalized).

(** The rule in the specification's words, not taken from the source: go
    through the units from the end, add each unit's width, stop as soon as
    the sum reaches the target; the units consumed are the result, with one
    more when the unit before the cut is a plain space; all of them when the
    target is never reached. *)
Definition spec_perUnitWidth (unitWidth : Q) (isMonospaced : bool)
    (allShort allLong : gset (list Z)) (u : visual_unit) : Q :=
  match u with
  | EmojiUnit => (unitWidth * 2)%Q
  | CharUnit c =>
      if isMonospaced then unitWidth
      else getCharWidth unitWidth allShort allLong [c]
  end.

Fixpoint spec_consume (unitWidth targetWidth : Q) (isMonospaced : bool)
    (allShort allLong : gset (list Z)) (from_end : list visual_unit)
    (accumulated : Q) (consumed : nat) : nat :=
  match from_end with
  | [] => consumed
  | u :: before =>
      let accumulated :=
        (accumulated
         + spec_perUnitWidth unitWidth isMonospaced allShort allLong u)%Q in
      let consumed := consumed + 1 in
      if Qle_bool targetWidth accumulated then
        match before with
        | CharUnit 32%Z :: _ => consumed + 1
        | _ => consumed
        end
      else spec_consume unitWidth targetWidth isMonospaced allShort allLong
             before accumulated consumed
  end.

Definition spec_unitsToDropFromEnd (normalized : jsstring)
    (unitWidth targetWidth : Q) (isMonospaced : bool)
    (allShort allLong : gset (list Z)) : nat :=
  spec_consume unitWidth targetWidth isMonospaced allShort allLong
    (reverse (visual_units normalized)) 0%Q 0.

(** U+1F600, GRINNING FACE. *)
Definition grinning_face : jsstring := [0xD83D; 0xDE00]%Z.

(** The counting loop never leaves the count at zero once it has seen a
    match. *)
Definition counted_inv (re : nat) (st : nat * nat * nat) : Prop :=
  st.2 = re ∧ (re = 0 ∨ 0 < st.1.1).



(** What the counting loop keeps true: no more emoji than units, and no
    more units than code units read. *)
Definition counting_inv (normalized : jsstring) (re : nat)
    (st : nat * nat * nat) : Prop :=
  st.2 = re ∧ re ≤ length normalized ∧ st.1.2 ≤ st.1.1 ∧ st.1.1 ≤ re.

(** [a] is a run of consecutive code units of [b]. *)
Definition is_part (a b : jsstring) : Prop :=
  ∃ before after, b = before ++ a ++ after.

(** * Properties *)

(** ** The patterns consume input *)

Lemma consumes_cons a s : consumes (a :: s) s.
Proof. split; [by apply suffix_cons_r | simpl; lia]. Qed.

Lemma consumes_trans s r t : consumes s r → consumes r t → consumes s t.
Proof. intros [H1 L1] [H2 L2]. split; [by etrans | lia]. Qed.

Lemma consumes_weak s r t : consumes s r → t `suffix_of` r → consumes s t.
Proof.
  intros [H1 L1] H2. split; [by etrans |].
  apply suffix_length in H2. lia.
Qed.

Lemma next_code_point_consumes s c r :
  next_code_point s = Some (c, r) → consumes s r.
Proof.
  destruct s as [|a [|b t]]; simpl; [done | |].
  - intros [= _ <-]. apply consumes_cons.
  - destruct (is_high_surrogate a && is_low_surrogate b); intros [= _ <-].
    + eapply consumes_trans; apply consumes_cons.
    + apply consumes_cons.
Qed.

Lemma eat_pictographic_consumes s r : eat_pictographic s = Some r → consumes s r.
Proof.
  unfold eat_pictographic.
  destruct (next_code_point s) as [[c r']|] eqn:E; [|done].
  destruct (Extended_Pictographic c); intros [= <-].
  by eapply next_code_point_consumes.
Qed.

Lemma eat_regional_consumes s r : eat_regional s = Some r → consumes s r.
Proof.
  unfold eat_regional.
  destruct (next_code_point s) as [[c r']|] eqn:E; [|done].
  destruct (Regional_Indicator c); intros [= <-].
  by eapply next_code_point_consumes.
Qed.

Lemma eat_unit_consumes u s r : eat_unit u s = Some r → consumes s r.
Proof.
  destruct s as [|a t]; simpl; [done|].
  destruct (a =? u)%Z; intros [= <-]. apply consumes_cons.
Qed.

Lemma opt_FE0F_suffix s : opt_FE0F s `suffix_of` s.
Proof.
  unfold opt_FE0F. destruct (eat_unit _ s) eqn:E; [|done].
  by apply eat_unit_consumes in E as [? _].
Qed.

Lemma zwj_tail_suffix fuel s : zwj_tail fuel s `suffix_of` s.
Proof.
  revert s. induction fuel as [|fuel IH]; intros s; simpl; [done|].
  destruct (eat_unit _ s) as [r|] eqn:E1; [|done].
  destruct (eat_pictographic r) as [r'|] eqn:E2; [|done].
  apply eat_unit_consumes in E1 as [H1 _].
  apply eat_pictographic_consumes in E2 as [H2 _].
  etrans; [apply IH|]. etrans; [apply opt_FE0F_suffix|]. by etrans.
Qed.

Lemma simple_tail_suffix fuel s : simple_tail fuel s `suffix_of` s.
Proof.
  revert s. induction fuel as [|fuel IH]; intros s; simpl; [done|].
  destruct (eat_unit 65039 s) as [r|] eqn:E0.
  { apply eat_unit_consumes in E0 as [H0 _]. etrans; [apply IH | done]. }
  destruct (eat_unit 8205 s) as [r|] eqn:E1; [|done].
  destruct (eat_pictographic r) as [r'|] eqn:E2; [|done].
  apply eat_unit_consumes in E1 as [H1 _].
  apply eat_pictographic_consumes in E2 as [H2 _].
  etrans; [apply IH|]. by etrans.
Qed.

(** The fuel of the two starred groups is never what stops them. *)
Lemma zwj_tail_fuel f1 f2 s :
  length s ≤ f1 → length s ≤ f2 → zwj_tail f1 s = zwj_tail f2 s.
Proof.
  revert f2 s. induction f1 as [|f1 IH]; intros f2 s L1 L2.
  { destruct s; [|simpl in L1; lia]. by destruct f2. }
  destruct f2 as [|f2]; [destruct s; [done | simpl in L2; lia]|].
  simpl. destruct (eat_unit 8205 s) as [r|] eqn:E1; [|done].
  destruct (eat_pictographic r) as [r'|] eqn:E2; [|done].
  apply eat_unit_consumes in E1 as [_ H1].
  apply eat_pictographic_consumes in E2 as [_ H2].
  pose proof (suffix_length _ _ (opt_FE0F_suffix r')).
  apply IH; lia.
Qed.

Lemma simple_tail_fuel f1 f2 s :
  length s ≤ f1 → length s ≤ f2 → simple_tail f1 s = simple_tail f2 s.
Proof.
  revert f2 s. induction f1 as [|f1 IH]; intros f2 s L1 L2.
  { destruct s; [|simpl in L1; lia]. by destruct f2. }
  destruct f2 as [|f2]; [destruct s; [done | simpl in L2; lia]|].
  simpl. destruct (eat_unit 65039 s) as [r|] eqn:E0.
  { apply eat_unit_consumes in E0 as [_ H0]. apply IH; lia. }
  destruct (eat_unit 8205 s) as [r|] eqn:E1; [|done].
  destruct (eat_pictographic r) as [r'|] eqn:E2; [|done].
  apply eat_unit_consumes in E1 as [_ H1].
  apply eat_pictographic_consumes in E2 as [_ H2].
  apply IH; lia.
Qed.

Lemma EMOJI_REGEX_ok : matcher_ok EMOJI_REGEX.
Proof.
  intros s r. unfold EMOJI_REGEX.
  destruct (eat_pictographic s) as [r1|] eqn:E1.
  - intros [= <-]. apply eat_pictographic_consumes in E1.
    eapply consumes_weak; [done|].
    etrans; [apply zwj_tail_suffix | apply opt_FE0F_suffix].
  - destruct (eat_regional s) as [r1|] eqn:E2; [|done].
    intros E3. apply eat_regional_consumes in E2, E3.
    by eapply consumes_trans.
Qed.

Lemma SIMPLE_EMOJI_REGEX_ok : matcher_ok SIMPLE_EMOJI_REGEX.
Proof.
  intros s r. unfold SIMPLE_EMOJI_REGEX.
  destruct (eat_pictographic s) as [r1|] eqn:E1; [|done].
  intros [= <-]. apply eat_pictographic_consumes in E1.
  eapply consumes_weak; [done | apply simple_tail_suffix].
Qed.

(** ** [exec] moves forward, and the loops end before their fuel does *)

Lemma find_bounds m i s idx e :
  matcher_ok m → find m i s = Some (idx, e) →
  i ≤ idx ∧ idx < e ∧ e ≤ i + length s.
Proof.
  intros Hm. pose proof (Nat.le_refl (length s)) as Hle.
  revert Hle. generalize (length s) at 2. intros n.
  revert s i. induction n as [|n IH]; intros s i Hle.
  - destruct s; [|simpl in Hle; lia]. simpl.
    destruct (m []) as [r|] eqn:E; [|done].
    apply Hm in E as [_ ?]. simpl in *. lia.
  - destruct s as [|a t]; simpl.
    + destruct (m []) as [r|] eqn:E; [|done].
      apply Hm in E as [_ ?]. simpl in *. lia.
    + simpl in Hle. destruct (m (a :: t)) as [r|] eqn:E.
      * apply Hm in E as [_ ?]. simpl in *. intros [= <- <-]. lia.
      * destruct t as [|b t'].
        -- intros H. apply IH in H; simpl in *; lia.
        -- destruct (is_high_surrogate a && is_low_surrogate b);
             intros H; apply IH in H; simpl in *; lia.
Qed.

Lemma exec_bounds m str lastIndex idx e :
  matcher_ok m → exec m str lastIndex = Some (idx, e) →
  lastIndex ≤ idx ∧ idx < e ∧ e ≤ length str.
Proof.
  intros Hm. unfold exec.
  destruct (length str <? lastIndex) eqn:L; [done|].
  apply Nat.ltb_ge in L. intros H.
  apply find_bounds in H; [|done]. rewrite length_drop in H. lia.
Qed.

(** Any two amounts of fuel that cover the rest of the string give the same
    run: the loops stop because [exec] returns [null] or the body breaks,
    never because the fuel of the embedding is used up. *)
Lemma exec_loop_fuel {A} m str (body : A → nat → nat → A * bool) :
  matcher_ok m →
  ∀ f1 f2 lastIndex a,
    0 < f1 → 0 < f2 →
    length str < lastIndex + f1 → length str < lastIndex + f2 →
    exec_loop m str body f1 lastIndex a = exec_loop m str body f2 lastIndex a.
Proof.
  intros Hm. induction f1 as [|f1 IH]; intros f2 li a P1 P2 L1 L2; [lia|].
  destruct f2 as [|f2]; [lia|]. simpl.
  destruct (exec m str li) as [[idx e]|] eqn:E; [|done].
  apply exec_bounds in E as (?&?&?); [|done].
  destruct (body a idx e) as [a' brk]. destruct brk; [done|].
  apply IH; lia.
Qed.

Lemma while_exec_fuel {A} m str (body : A → nat → nat → A * bool) fuel a :
  matcher_ok m → length str < fuel →
  exec_loop m str body fuel 0 a = while_exec m str body 0 a.
Proof.
  intros Hm L. unfold while_exec. apply exec_loop_fuel; [done|lia..].
Qed.

(** Invariants of a loop whose body never breaks. *)
Lemma exec_loop_invariant {A} m str (body : A → nat → nat → A * bool)
    (P : nat → A → Prop) :
  matcher_ok m →
  (∀ lastIndex a idx e,
     P lastIndex a → exec m str lastIndex = Some (idx, e) →
     (body a idx e).2 = false ∧ P e (body a idx e).1) →
  ∀ fuel lastIndex a,
    0 < fuel → length str < lastIndex + fuel → P lastIndex a →
    ∃ final, P final (exec_loop m str body fuel lastIndex a).1
             ∧ exec m str final = None.
Proof.
  intros Hm Hbody. induction fuel as [|fuel IH]; intros li a P0 L HP; [lia|].
  simpl. destruct (exec m str li) as [[idx e]|] eqn:E.
  - destruct (Hbody _ _ _ _ HP E) as [Hb HP'].
    pose proof (exec_bounds _ _ _ _ _ Hm E) as (?&?&?).
    destruct (body a idx e) as [a' brk]; simpl in *. subst brk.
    apply IH; [lia | lia | done].
  - exists li. by split.
Qed.

(** ** [visualSliceHelper] *)

Lemma concat_chars s : concat (chars s) = s.
Proof.
  pose proof (Nat.le_refl (length s)) as Hle.
  revert Hle. generalize (length s) at 2. intros n.
  revert s. induction n as [|n IH]; intros s Hle.
  - by destruct s; [|simpl in Hle; lia].
  - destruct s as [|a [|b t]]; [done..|]. simpl in *.
    destruct (is_high_surrogate a && is_low_surrogate b); simpl.
    + rewrite IH; [done | lia].
    + f_equal. apply (IH (b :: t)). simpl. lia.
Qed.

Lemma take_substring i j (s : jsstring) :
  i ≤ j → take i s ++ substring i j s = take j s.
Proof.
  intros H. unfold substring. rewrite take_take_drop. f_equal. lia.
Qed.

Lemma segments_body_inv text re st idx e :
  segments_inv text re st →
  exec SIMPLE_EMOJI_REGEX text re = Some (idx, e) →
  (segments_body text st idx e).2 = false
  ∧ segments_inv text e (segments_body text st idx e).1.
Proof.
  intros (Hl & Hre & Hc) E. destruct st as [segments lastIndex].
  simpl in Hl, Hc. subst lastIndex.
  apply exec_bounds in E as (?&?&?); [|apply SIMPLE_EMOJI_REGEX_ok].
  unfold segments_body. split; [done|]. split; [done|]. split; [done|].
  simpl. destruct (re <? idx) eqn:L.
  - rewrite !concat_app, concat_chars, Hc. simpl. rewrite app_nil_r.
    rewrite take_substring by lia. apply take_substring. lia.
  - apply Nat.ltb_ge in L. assert (idx = re) as -> by lia.
    rewrite concat_app, Hc. simpl. rewrite app_nil_r.
    apply take_substring. lia.
Qed.

Lemma concat_segments_of text : concat (segments_of text) = text.
Proof.
  unfold segments_of, while_exec.
  destruct (exec_loop_invariant SIMPLE_EMOJI_REGEX text (segments_body text)
              (segments_inv text) SIMPLE_EMOJI_REGEX_ok
              (segments_body_inv text) (S (length text)) 0 ([], 0))
    as (final & (Hl & Hre & Hc) & _); [lia | lia | by repeat split; simpl; try lia |].
  destruct (exec_loop _ _ _ _ _ _) as [[segments lastIndex] re'].
  simpl in *. subst lastIndex.
  destruct (final <? length text) eqn:L.
  - rewrite concat_app, concat_chars, Hc. apply take_drop.
  - apply Nat.ltb_ge in L. rewrite Hc. apply take_ge. lia.
Qed.

(** C10: slicing from visual position 0 with no end gives back the text:
    cutting a string into visual units and joining all of them is the
    identity. *)
Theorem visualSliceHelper_whole (text : jsstring) :
  visualSliceHelper text 0 None = text.
Proof.
  destruct text as [|c t]; [done|].
  unfold visualSliceHelper. set (text := c :: t).
  assert (Hne : text ≠ []) by done.
  pose proof (concat_segments_of text) as Hc. clearbody text.
  destruct (segments_of text) as [|seg segs] eqn:Es.
  { simpl in Hc. congruence. }
  rewrite <- Es in *.
  assert (0 < length (segments_of text)) by (rewrite Es; simpl; lia).
  destruct (Z.of_nat (length (segments_of text)) <=? 0)%Z eqn:L0; [lia|].
  change (0 <? 0)%Z with false. cbv iota.
  set (total := Z.of_nat (length (segments_of text))) in *.
  replace (0 `max` (total `min` total))%Z with total by lia.
  replace (0 `max` (0 `min` total))%Z with 0%Z by lia.
  destruct (total <=? 0)%Z eqn:L1; [lia|].
  subst total. rewrite Nat2Z.id. change (Z.to_nat 0) with 0%nat.
  rewrite Nat.sub_0_r, drop_0, take_ge; done.
Qed.

(** C1, at the failing input: the first visual unit of a text that is one
    flag is a lone regional indicator, half of the flag. The same cut of the
    flag is what [EMOJI_REGEX] takes as one match. *)
Theorem visualSliceHelper_splits_flag :
  visualSliceHelper flag_US 0 (Some 1%Z) = [0xD83C; 0xDDFA]%Z
  ∧ visualSliceHelper flag_US 0 (Some (-1)%Z) = [0xD83C; 0xDDFA]%Z
  ∧ segments_of flag_US = [[0xD83C; 0xDDFA]; [0xD83C; 0xDDF8]]%Z
  ∧ exec EMOJI_REGEX flag_US 0 = Some (0, 4).
Proof. repeat split; vm_compute; reflexivity. Qed.

(** ** The normalisation cache *)

Section Cache.

Variable NFC : jsstring → jsstring.

Lemma cache_consistent_empty : cache_consistent NFC ∅.
Proof. intros text cached. by rewrite lookup_empty. Qed.

Lemma cache_consistent_insert normalizeCache text :
  cache_consistent NFC normalizeCache →
  cache_consistent NFC (<[text := NFC text]> normalizeCache).
Proof.
  intros H k v. destruct (decide (text = k)) as [->|Hne].
  - rewrite lookup_insert_eq. by intros [= <-].
  - rewrite lookup_insert_ne by done. apply H.
Qed.

Lemma getNormalizedString_consistent text normalizeCache :
  cache_consistent NFC normalizeCache →
  (getNormalizedString NFC text normalizeCache).1 = NFC text
  ∧ cache_consistent NFC (getNormalizedString NFC text normalizeCache).2.
Proof.
  intros H. unfold getNormalizedString.
  destruct (normalizeCache !! text) as [cached|] eqn:E; simpl.
  - split; [by apply H | done].
  - split; [done|]. apply cache_consistent_insert.
    destruct (1000 <? size normalizeCache);
      [apply cache_consistent_empty | done].
Qed.

Lemma cache_after_consistent requests :
  cache_consistent NFC (cache_after NFC requests).
Proof.
  unfold cache_after. generalize cache_consistent_empty.
  generalize (∅ : gmap (list Z) (list Z)).
  induction requests as [|text requests IH]; intros c Hc; simpl; [done|].
  apply IH. by apply getNormalizedString_consistent.
Qed.

(** Each helper returns what it returns on an empty cache, and keeps the
    cache consistent. *)
Lemma getVisualLengthHelper_cache text cs cl c c' :
  cache_consistent NFC c → cache_consistent NFC c' →
  (getVisualLengthHelper NFC text cs cl c).1
  = (getVisualLengthHelper NFC text cs cl c').1
  ∧ cache_consistent NFC (getVisualLengthHelper NFC text cs cl c).2.
Proof.
  intros H H'. unfold getVisualLengthHelper.
  destruct text as [|a t]; [done|].
  destruct (getNormalizedString_consistent (a :: t) c H) as [E1 E2].
  destruct (getNormalizedString_consistent (a :: t) c' H') as [E1' E2'].
  destruct (getNormalizedString NFC (a :: t) c) as [n1 c1].
  destruct (getNormalizedString NFC (a :: t) c') as [n1' c1'].
  simpl in *. subst n1 n1'.
  destruct (while_exec _ _ _ _ _) as [[[vl ec] li] re]. done.
Qed.

Lemma calculateSlicePositionHelper_cache text cw tw mono cs cl c c' :
  cache_consistent NFC c → cache_consistent NFC c' →
  (calculateSlicePositionHelper NFC text cw tw mono cs cl c).1
  = (calculateSlicePositionHelper NFC text cw tw mono cs cl c').1
  ∧ cache_consistent NFC (calculateSlicePositionHelper NFC text cw tw mono cs cl c).2.
Proof.
  intros H H'. unfold calculateSlicePositionHelper.
  destruct (_ || _); [done|].
  destruct (getNormalizedString_consistent text c H) as [E1 E2].
  destruct (getNormalizedString_consistent text c' H') as [E1' E2'].
  destruct (getNormalizedString NFC text c) as [n1 c1].
  destruct (getNormalizedString NFC text c') as [n1' c1'].
  simpl in *. subst n1 n1'. by destruct mono.
Qed.

Lemma calculateStringWidthHelper_cache text cw mono cs cl c c' :
  cache_consistent NFC c → cache_consistent NFC c' →
  (calculateStringWidthHelper NFC text cw mono cs cl c).1
  = (calculateStringWidthHelper NFC text cw mono cs cl c').1
  ∧ cache_consistent NFC (calculateStringWidthHelper NFC text cw mono cs cl c).2.
Proof.
  intros H H'. unfold calculateStringWidthHelper.
  destruct text as [|a t]; [done|].
  destruct (getNormalizedString_consistent (a :: t) c H) as [E1 E2].
  destruct (getNormalizedString_consistent (a :: t) c' H') as [E1' E2'].
  destruct (getNormalizedString NFC (a :: t) c) as [n1 c1].
  destruct (getNormalizedString NFC (a :: t) c') as [n1' c1'].
  simpl in *. by subst n1 n1'.
Qed.

Lemma truncatedText_cache props lines containerWidth c c' :
  cache_consistent NFC c → cache_consistent NFC c' →
  fst <$> truncatedText NFC props lines containerWidth c
  = fst <$> truncatedText NFC props lines containerWidth c'.
Proof.
  intros H H'. unfold truncatedText.
  destruct (getVisualLengthHelper_cache (lastRowForWidthCalc props lines)
              (shortWidthCharacters props) (longWidthCharacters props)
              c c' H H') as [E1 H1].
  destruct (getVisualLengthHelper_cache (lastRowForWidthCalc props lines)
              (shortWidthCharacters props) (longWidthCharacters props)
              c' c H' H) as [_ H1'].
  destruct (getVisualLengthHelper NFC _ _ _ c) as [p c1].
  destruct (getVisualLengthHelper NFC _ _ _ c') as [p' c1'].
  simpl in E1, H1, H1'. subst p'.
  destruct (line_at lines _) as [row|]; [|done].
  set (avg := avgCharWidth_of _ p).
  destruct (calculateStringWidthHelper_cache (readMoreTextContent props)
              (or_one avg) (isMonospaced props) (shortWidthCharacters props)
              (longWidthCharacters props) c1 c1' H1 H1') as [E2 H2].
  destruct (calculateStringWidthHelper_cache (readMoreTextContent props)
              (or_one avg) (isMonospaced props) (shortWidthCharacters props)
              (longWidthCharacters props) c1' c1 H1' H1) as [_ H2'].
  destruct (calculateStringWidthHelper NFC _ _ _ _ _ c1) as [w c2].
  destruct (calculateStringWidthHelper NFC _ _ _ _ _ c1') as [w' c2'].
  simpl in E2, H2, H2'. subst w'.
  destruct (Qle_bool _ _); [done|].
  destruct (slice_call_arguments props lines p w) as [[text cw] tw].
  destruct (calculateSlicePositionHelper_cache text cw tw
              (isMonospaced props) (shortWidthCharacters props)
              (longWidthCharacters props) c2 c2' H2 H2') as [E3 _].
  destruct (calculateSlicePositionHelper NFC _ _ _ _ _ _ c2) as [z c3].
  destruct (calculateSlicePositionHelper NFC _ _ _ _ _ _ c2') as [z' c3'].
  simpl in E3. by subst z'.
Qed.

Lemma calculateTruncatedText_cache props comp c c' :
  cache_consistent NFC c → cache_consistent NFC c' →
  fst <$> calculateTruncatedText NFC props comp c
  = fst <$> calculateTruncatedText NFC props comp c'.
Proof.
  intros H H'. unfold calculateTruncatedText.
  destruct (_ || _); [done|]. destruct (_ <? _); [|done].
  pose proof (truncatedText_cache props (textLinesRef comp)
                (containerWidthRef comp) c c' H H') as E.
  destruct (truncatedText NFC _ _ _ c) as [[t1 c1]|];
    destruct (truncatedText NFC _ _ _ c') as [[t1' c1']|];
    simpl in E; try done.
  by injection E as ->.
Qed.

(** C9: in every state the cache can be in, [getNormalizedString] returns
    the NFC normal form of its argument, and a run of
    [calculateTruncatedText] gives the same component (or the same
    exception) whatever requests the cache has served before. *)
Theorem normalizeCache_never_changes_results
    (requests requests' : list jsstring) (text : jsstring)
    (props : Props) (comp : Component) :
  (getNormalizedString NFC text (cache_after NFC requests)).1 = NFC text
  ∧ fst <$> calculateTruncatedText NFC props comp (cache_after NFC requests)
    = fst <$> calculateTruncatedText NFC props comp (cache_after NFC requests').
Proof.
  split.
  - apply getNormalizedString_consistent, cache_after_consistent.
  - apply calculateTruncatedText_cache; apply cache_after_consistent.
Qed.

End Cache.

(** ** [getVisualLengthHelper] on text without emoji *)

(** Where [EMOJI_REGEX] finds nothing, the visual length is the [length] of
    the normalised string: its number of UTF-16 code units. *)
Lemma getVisualLengthHelper_no_emoji NFC text cs cl requests :
  text ≠ [] → exec EMOJI_REGEX (NFC text) 0 = None →
  visualLength (getVisualLengthHelper NFC text cs cl (cache_after NFC requests)).1
  = length (NFC text).
Proof.
  intros Hne Hex. unfold getVisualLengthHelper.
  destruct text as [|a t]; [done|].
  destruct (getNormalizedString_consistent NFC (a :: t) _
              (cache_after_consistent NFC requests)) as [E _].
  destruct (getNormalizedString NFC (a :: t) _) as [normalized c1].
  simpl in E. subst normalized.
  unfold while_exec. simpl exec_loop. rewrite Hex.
  destruct (0 <? length (NFC (a :: t))) eqn:L; simpl.
  - lia.
  - apply Nat.ltb_ge in L. lia.
Qed.

(** C5, at the failing input: for a string that is one code point and holds
    no emoji, the visual length is 2, the number of its UTF-16 code units;
    the string iterator that [visualSliceHelper] and the character counts
    use sees one character. *)
Theorem getVisualLengthHelper_counts_code_units NFC requests :
  NFC script_capital_X = script_capital_X →
  exec EMOJI_REGEX (NFC script_capital_X) 0 = None
  ∧ length (chars (NFC script_capital_X)) = 1
  ∧ segments_of script_capital_X = [script_capital_X]
  ∧ visualLength
      (getVisualLengthHelper NFC script_capital_X [] []
         (cache_after NFC requests)).1 = 2.
Proof.
  intros HN.
  assert (Hex : exec EMOJI_REGEX (NFC script_capital_X) 0 = None)
    by (rewrite HN; vm_compute; reflexivity).
  split; [done|]. split; [by rewrite HN|]. split; [by vm_compute|].
  rewrite getVisualLengthHelper_no_emoji by done. by rewrite HN.
Qed.

Lemma getVisualLengthHelper_counts_code_units_witness :
  exec EMOJI_REGEX script_capital_X 0 = None
  ∧ length (chars script_capital_X) = 1
  ∧ segments_of script_capital_X = [script_capital_X]
  ∧ visualLength
      (getVisualLengthHelper (fun s => s) script_capital_X [] []
         (cache_after (fun s => s) [])).1 = 2.
Proof.
  apply (getVisualLengthHelper_counts_code_units (fun s => s) []).
  reflexivity.
Defined.

(** ** The slice position never shrinks when the target grows *)

Lemma Qle_bool_weaken (t1 t2 acc : Q) :
  (t1 <= t2)%Q → Qle_bool t2 acc = true → Qle_bool t1 acc = true.
Proof.
  rewrite !Qle_bool_iff. intros H1 H2. by eapply Qle_trans.
Qed.

(** A scan that has [n] positions left and has dropped [slicePosition]
    already answers with a number of units between [slicePosition + 1] and
    the total, and with the total when nothing is left. *)
Lemma mono_scan_bounds normalized cw tw ep total n acc sp :
  sp + n ≤ total →
  (n = 0 → mono_scan normalized cw tw ep total n acc sp = (- Z.of_nat total)%Z)
  ∧ (0 < n →
     (- Z.of_nat total ≤ mono_scan normalized cw tw ep total n acc sp
      ≤ - Z.of_nat (sp + 1))%Z).
Proof.
  revert acc sp. induction n as [|i IH]; intros acc sp Hle.
  { split; [done | lia]. }
  split; [lia|]. intros _. simpl.
  destruct (Qle_bool tw _).
  - destruct (0 <? i) eqn:Li; simpl.
    + apply Nat.ltb_lt in Li.
      destruct (negb _); [|lia]. destruct (_ && _); lia.
    + lia.
  - destruct (IH (acc + (if has_position ep i then cw * 2 else cw))%Q
                (sp + 1)) as [H0 H1]; [lia|].
    destruct i as [|i']; [rewrite H0 by done; lia|].
    specialize (H1 ltac:(lia)). lia.
Qed.

Lemma mono_scan_monotone normalized cw t1 t2 ep total n acc sp :
  (t1 <= t2)%Q → sp + n ≤ total →
  (mono_scan normalized cw t2 ep total n acc sp
   ≤ mono_scan normalized cw t1 ep total n acc sp)%Z.
Proof.
  intros Ht. revert acc sp. induction n as [|i IH]; intros acc sp Hle; [done|].
  simpl. set (acc' := (acc + _)%Q).
  destruct (Qle_bool t2 acc') eqn:E2.
  - by rewrite (Qle_bool_weaken t1 t2 acc' Ht E2).
  - destruct (Qle_bool t1 acc') eqn:E1; [|apply IH; lia].
    destruct (mono_scan_bounds normalized cw t2 ep total i acc' (sp + 1))
      as [H0 H1]; [lia|].
    destruct i as [|i'].
    + rewrite H0 by done. simpl. lia.
    + specialize (H1 ltac:(lia)).
      destruct (_ && negb _); [|lia]. destruct (_ && _); lia.
Qed.

Lemma prop_scan_bounds normalized cw tw allShort allLong ep total n acc sp re :
  sp + n ≤ total →
  (n = 0 →
   prop_scan normalized cw tw allShort allLong ep total n acc sp re = (- Z.of_nat total)%Z)
  ∧ (0 < n →
     (- Z.of_nat total ≤ prop_scan normalized cw tw allShort allLong ep total n acc sp re
      ≤ - Z.of_nat (sp + 1))%Z).
Proof.
  revert acc sp re. induction n as [|i IH]; intros acc sp re Hle.
  { split; [done | lia]. }
  split; [lia|]. intros _. simpl.
  destruct (if has_position ep i then _ else _) as [width re'].
  destruct (Qle_bool tw _).
  - destruct (0 <? i) eqn:Li; simpl.
    + apply Nat.ltb_lt in Li.
      destruct (negb _); [|lia]. destruct (is_space_at _ _); lia.
    + lia.
  - destruct (IH (acc + width)%Q (sp + 1) re') as [H0 H1]; [lia|].
    destruct i as [|i']; [rewrite H0 by done; lia|].
    specialize (H1 ltac:(lia)). lia.
Qed.

Lemma prop_scan_monotone normalized cw t1 t2 allShort allLong ep total n acc sp re :
  (t1 <= t2)%Q → sp + n ≤ total →
  (prop_scan normalized cw t2 allShort allLong ep total n acc sp re
   ≤ prop_scan normalized cw t1 allShort allLong ep total n acc sp re)%Z.
Proof.
  intros Ht. revert acc sp re.
  induction n as [|i IH]; intros acc sp re Hle; [done|].
  simpl. destruct (if has_position ep i then _ else _) as [width re'].
  set (acc' := (acc + width)%Q).
  destruct (Qle_bool t2 acc') eqn:E2.
  - by rewrite (Qle_bool_weaken t1 t2 acc' Ht E2).
  - destruct (Qle_bool t1 acc') eqn:E1; [|apply IH; lia].
    destruct (prop_scan_bounds normalized cw t2 allShort allLong ep total i acc' (sp + 1) re')
      as [H0 H1]; [lia|].
    destruct i as [|i'].
    + rewrite H0 by done. simpl. lia.
    + specialize (H1 ltac:(lia)).
      destruct (_ && negb _); [|lia]. destruct (is_space_at _ _); lia.
Qed.

Lemma slice_position_monospaced_monotone normalized cw t1 t2 :
  (t1 <= t2)%Q →
  (slice_position_monospaced normalized cw t2
   ≤ slice_position_monospaced normalized cw t1 ≤ 0)%Z.
Proof.
  intros Ht. unfold slice_position_monospaced.
  destruct (while_exec _ _ total_length_body _ _) as [[tl li] re].
  destruct (while_exec _ _ mono_mark_body _ _) as [[[ep li'] vp] re'].
  set (total := if li <? length normalized then _ else _).
  split; [apply mono_scan_monotone; [done | lia]|].
  destruct (mono_scan_bounds normalized cw t1 ep total total 0%Q 0) as [H0 H1];
    [lia|].
  destruct total; [rewrite H0 by done; lia | specialize (H1 ltac:(lia)); lia].
Qed.

Lemma slice_position_proportional_monotone normalized cw t1 t2 allShort allLong :
  (t1 <= t2)%Q →
  (slice_position_proportional normalized cw t2 allShort allLong
   ≤ slice_position_proportional normalized cw t1 allShort allLong ≤ 0)%Z.
Proof.
  intros Ht. unfold slice_position_proportional.
  destruct (while_exec _ _ mark_body _ _) as [[[[tv ep] li] vp] re'].
  set (total := if li <? length normalized then _ else _).
  split; [apply prop_scan_monotone; [done | lia]|].
  destruct (prop_scan_bounds normalized cw t1 allShort allLong ep total total 0%Q 0 0)
    as [H0 H1]; [lia|].
  destruct total; [rewrite H0 by done; lia | specialize (H1 ltac:(lia)); lia].
Qed.

(** C7: for a fixed text, unit width, monospaced flag and override lists,
    the number of units that [calculateSlicePositionHelper] says to drop (the
    magnitude of its result) does not decrease when the target width
    increases, in whatever states the cache is at the two calls. *)
Theorem calculateSlicePositionHelper_monotone NFC text charWidth t1 t2
    isMonospaced customShort customLong requests requests' :
  (t1 <= t2)%Q →
  (Z.abs (calculateSlicePositionHelper NFC text charWidth t1 isMonospaced
            customShort customLong (cache_after NFC requests)).1
   ≤ Z.abs (calculateSlicePositionHelper NFC text charWidth t2 isMonospaced
              customShort customLong (cache_after NFC requests')).1)%Z.
Proof.
  intros Ht.
  destruct (calculateSlicePositionHelper_cache NFC text charWidth t2
              isMonospaced customShort customLong
              (cache_after NFC requests') (cache_after NFC requests)
              (cache_after_consistent NFC requests')
              (cache_after_consistent NFC requests)) as [-> _].
  unfold calculateSlicePositionHelper.
  destruct (bool_decide (text = [])); simpl; [done|].
  destruct (Qle_bool t2 0) eqn:E2.
  { by rewrite (Qle_bool_weaken t1 t2 0 Ht E2). }
  destruct (getNormalizedString NFC text _) as [normalized c1].
  destruct (Qle_bool t1 0) eqn:E1; simpl.
  { destruct isMonospaced; simpl; lia. }
  destruct isMonospaced; simpl.
  - pose proof (slice_position_monospaced_monotone normalized charWidth
                  t1 t2 Ht). lia.
  - pose proof (slice_position_proportional_monotone normalized charWidth
                  t1 t2 (allShortCharacters customShort)
                  (allLongCharacters customLong) Ht). lia.
Qed.

Lemma calculateSlicePositionHelper_monotone_witness :
  (1 <= 2)%Q
  ∧ (Z.abs (calculateSlicePositionHelper (fun s => s) (js "a b c") 1 1 false
              [] [] (cache_after (fun s => s) [])).1
     ≤ Z.abs (calculateSlicePositionHelper (fun s => s) (js "a b c") 1 2 false
                [] [] (cache_after (fun s => s) [js "a b c"])).1)%Z.
Proof.
  split; [vm_compute; discriminate|].
  apply (calculateSlicePositionHelper_monotone (fun s => s) (js "a b c") 1 1 2
           false [] [] [] [js "a b c"]).
  vm_compute; discriminate.
Defined.

(** ** The slice position against the rule it is meant to follow *)

(** C4, at two failing inputs.

    Proportional: in "(grin)Ma(grin)" with unit width 1 and target 4.5, the
    last three units weigh 2 + 1 + 1.5 = 4.5, so three units are to go; the
    scan looks the [M] up with the [lastIndex] that the lookup of [a] left in
    [EMOJI_REGEX], reads the second half of the first emoji instead, weighs
    it 1, and drops all four.

    Monospaced: in "a b" with unit width 1 and target 1, the cut after one
    unit leaves a space before it, so two units are to go; the lookup of the
    character before the cut stops at index 0 when the text has no emoji,
    reads [a], and drops one. *)
Theorem calculateSlicePositionHelper_misses_rule NFC requests :
  NFC (grinning_face ++ js "Ma" ++ grinning_face)
  = grinning_face ++ js "Ma" ++ grinning_face →
  NFC (js "a b") = js "a b" →
  ((calculateSlicePositionHelper NFC
      (grinning_face ++ js "Ma" ++ grinning_face) 1 4.5 false [] []
      (cache_after NFC requests)).1 = (-4)%Z
   ∧ spec_unitsToDropFromEnd (grinning_face ++ js "Ma" ++ grinning_face)
       1 4.5 false SHORT_CHARACTERS LONG_CHARACTERS = 3)
  ∧ ((calculateSlicePositionHelper NFC (js "a b") 1 1 true [] []
        (cache_after NFC requests)).1 = (-1)%Z
     ∧ spec_unitsToDropFromEnd (js "a b") 1 1 true
         SHORT_CHARACTERS LONG_CHARACTERS = 2).
Proof.
  intros H1 H2.
  pose proof (cache_after_consistent NFC requests) as Hc.
  split; split.
  - unfold calculateSlicePositionHelper.
    destruct (getNormalizedString_consistent NFC
                (grinning_face ++ js "Ma" ++ grinning_face) _ Hc) as [E _].
    destruct (getNormalizedString NFC _ _) as [normalized c1].
    cbn [fst] in E. rewrite H1 in E. subst normalized.
    vm_compute. reflexivity.
  - vm_compute. reflexivity.
  - unfold calculateSlicePositionHelper.
    destruct (getNormalizedString_consistent NFC (js "a b") _ Hc) as [E _].
    destruct (getNormalizedString NFC _ _) as [normalized c1].
    cbn [fst] in E. rewrite H2 in E. subst normalized.
    vm_compute. reflexivity.
  - vm_compute. reflexivity.
Qed.

Lemma calculateSlicePositionHelper_misses_rule_witness :
  ((calculateSlicePositionHelper (fun s => s)
      (grinning_face ++ js "Ma" ++ grinning_face) 1 4.5 false [] []
      (cache_after (fun s => s) [])).1 = (-4)%Z
   ∧ spec_unitsToDropFromEnd (grinning_face ++ js "Ma" ++ grinning_face)
       1 4.5 false SHORT_CHARACTERS LONG_CHARACTERS = 3)
  ∧ ((calculateSlicePositionHelper (fun s => s) (js "a b") 1 1 true [] []
        (cache_after (fun s => s) [])).1 = (-1)%Z
     ∧ spec_unitsToDropFromEnd (js "a b") 1 1 true
         SHORT_CHARACTERS LONG_CHARACTERS = 2).
Proof.
  apply (calculateSlicePositionHelper_misses_rule (fun s => s) []);
    reflexivity.
Defined.

(** ** The component *)

(** The current revision, lines 773 to 898: when the lines reported are no
    more than [numberOfLines], a run of [calculateTruncatedText] leaves the
    text of the component alone. Once both layouts are known the run also
    settles [isNeedReadMore] on [false]; while one of them is missing
    nothing changes at all. *)
Lemma calculateTruncatedText_within_limit NFC props comp normalizeCache :
  length (textLinesRef comp) ≤ numberOfLines props →
  ∃ comp',
    calculateTruncatedText NFC props comp normalizeCache
    = Some (comp', normalizeCache)
    ∧ fullTextRef comp' = fullTextRef comp
    ∧ displayText props comp' = displayText props comp
    ∧ (isNeedReadMore comp = false → isNeedReadMore comp' = false)
    ∧ (textLinesRef comp ≠ [] → ¬ (containerWidthRef comp == 0)%Q →
       isNeedReadMore comp' = false ∧ isCalculationCompleteRef comp' = true)
    ∧ (textLinesRef comp = [] ∨ (containerWidthRef comp == 0)%Q →
       comp' = comp).
Proof.
  intros Hle. unfold calculateTruncatedText.
  destruct (length (textLinesRef comp) =? 0) eqn:E0; simpl.
  { exists comp. apply Nat.eqb_eq in E0.
    destruct (textLinesRef comp); [|done]. repeat split; done. }
  destruct (Qeq_bool (containerWidthRef comp) 0) eqn:Ew.
  { exists comp. apply Qeq_bool_iff in Ew. repeat split; done. }
  destruct (numberOfLines props <? length (textLinesRef comp)) eqn:L.
  { apply Nat.ltb_lt in L. lia. }
  eexists. split; [done|]. repeat split; try done.
  - intros [H|H].
    + rewrite H in E0. done.
    + apply Qeq_bool_iff in H. congruence.
Qed.

Lemma calculateTruncatedText_within_limit_witness :
  let props := {| numberOfLines := 2; children := js "one line";
                  readMoreText := None; compensationSpaceAndroid := 0;
                  isMonospaced := false; shortWidthCharacters := [];
                  longWidthCharacters := [] |} in
  let comp := {| isNeedReadMore := false; renderTrigger := false;
                 isShowingFullTextRef := false;
                 fullTextRef := js "one line";
                 truncatedTextRef := js "one line";
                 containerWidthRef := 300;
                 textLinesRef := [ {| line_text := js "one line";
                                      line_width := 80 |} ];
                 isCalculationCompleteRef := false;
                 hasPropsChangedRef := true;
                 oldChildren := js "one line" |} in
  length (textLinesRef comp) ≤ numberOfLines props
  ∧ ∃ comp',
      calculateTruncatedText (fun s => s) props comp ∅ = Some (comp', ∅)
      ∧ fullTextRef comp' = fullTextRef comp
      ∧ displayText props comp' = displayText props comp
      ∧ (isNeedReadMore comp = false → isNeedReadMore comp' = false)
      ∧ (textLinesRef comp ≠ [] → ¬ (containerWidthRef comp == 0)%Q →
         isNeedReadMore comp' = false ∧ isCalculationCompleteRef comp' = true)
      ∧ (textLinesRef comp = [] ∨ (containerWidthRef comp == 0)%Q →
         comp' = comp).
Proof.
  intros props comp. split; [simpl; lia|].
  apply (calculateTruncatedText_within_limit (fun s => s) props comp ∅).
  simpl; lia.
Defined.

(** A component that has just been mounted, or whose layout effect has just
    run, shows the full text. *)
Lemma displayText_mount props : displayText props (mount props) = children props.
Proof. unfold displayText. by case_bool_decide. Qed.

Lemma displayText_layoutEffect props comp :
  displayText props (layoutEffect props comp) = children props.
Proof. unfold displayText. by case_bool_decide. Qed.

(** The first revision kept in the same file tested [>=]: there, as many
    lines as [numberOfLines] already took the truncating branch. *)
Lemma first_revision_truncates_at_limit lines :
  first_revision_line_test (length lines) lines = true.
Proof. apply Nat.leb_refl. Qed.

(** In the current revision a component whose [fullTextRef] holds the
    children, as it does after the mount and after the layout effect, goes
    on showing the children when the lines are within the limit. *)
Lemma calculateTruncatedText_within_limit_shows_children NFC props comp
    normalizeCache :
  length (textLinesRef comp) ≤ numberOfLines props →
  fullTextRef comp = children props →
  ∃ comp',
    calculateTruncatedText NFC props comp normalizeCache
    = Some (comp', normalizeCache)
    ∧ displayText props comp' = children props
    ∧ (isNeedReadMore comp = false → isNeedReadMore comp' = false).
Proof.
  intros Hle Hfull.
  destruct (calculateTruncatedText_within_limit NFC props comp normalizeCache
              Hle) as (comp' & E & Hf & _ & Hn & _).
  exists comp'. split; [done|]. split; [|done].
  unfold displayText. case_bool_decide; [done|]. congruence.
Qed.

(** In the first revision every run that gets as many lines as
    [numberOfLines], and returns, asks for the affordance and ends the text
    with the ellipsis. *)
Lemma first_revision_at_limit props comp comp' :
  length (textLinesRef comp) = numberOfLines props →
  textLinesRef comp ≠ [] →
  ¬ (containerWidthRef comp == 0)%Q →
  first_revision_calculateTruncatedText props comp = Returned comp' →
  isNeedReadMore comp' = true
  ∧ ∃ kept, fullTextRef comp' = trim kept ++ js "... ".
Proof.
  intros Hlen Hne Hw. unfold first_revision_calculateTruncatedText.
  destruct (length (textLinesRef comp) =? 0) eqn:E0.
  { apply Nat.eqb_eq in E0. by destruct (textLinesRef comp). }
  destruct (Qeq_bool (containerWidthRef comp) 0) eqn:Ew.
  { by apply Qeq_bool_iff in Ew. }
  cbn [orb]. unfold first_revision_line_test.
  rewrite <- Hlen, Nat.leb_refl.
  destruct (line_at _ _); [|done].
  destruct (first_revision_characterWidthsByLine _); [|done].
  cbv zeta. destruct (Qle_bool _ _).
  - intros [= ?]; subst comp'. split; [done|]. by eexists.
  - destruct (Qeq_bool (_ / _) 0); [done|].
    intros [= ?]; subst comp'. split; [done|]. by eexists.
Qed.

(** C2: in the first revision of [calculateTruncatedText]
    (rnShowMoreText.tsx, lines 118 to 193, and rnShowMoreText.ios.tsx) a
    text of one line under a limit of one line is truncated: the run sets
    [isNeedReadMore] and the component shows the text followed by the
    ellipsis, not the children. The current revision leaves the same
    component with the children and without the affordance. *)
Theorem first_revision_truncates_within_limit :
  length (textLinesRef one_line_measured) ≤ numberOfLines one_line_props
  ∧ fullTextRef one_line_measured = children one_line_props
  ∧ (∃ comp',
       first_revision_calculateTruncatedText one_line_props one_line_measured
       = Returned comp'
       ∧ isNeedReadMore comp' = true
       ∧ first_revision_displayText comp' = js "abc... "
       ∧ first_revision_displayText comp' ≠ children one_line_props)
  ∧ (∃ comp',
       calculateTruncatedText (fun s => s) one_line_props one_line_measured ∅
       = Some (comp', ∅)
       ∧ isNeedReadMore comp' = false
       ∧ displayText one_line_props comp' = children one_line_props).
Proof.
  split; [simpl; lia|]. split; [done|]. split.
  - eexists. split; [vm_compute; reflexivity|].
    split; [done|]. split; [done|]. vm_compute. discriminate.
  - eexists. split; [vm_compute; reflexivity|]. split; [done|].
    vm_compute. reflexivity.
Qed.

(** C3: for a last row of nonzero visual length, the estimate of the width
    of a unit is the row's width over its visual length, times
    [1 + |balance| / visualLength] when the balance is negative, times
    [1 - |balance| / visualLength] when it is positive, and as it is when
    the balance is zero; the balance is
    [emojiCount + 0.5 * longCharCount - 0.5 * shortCharCount]. That estimate
    is the unit width handed on to the slice position. *)
Theorem avgCharWidth_balance_adjustment NFC props lines requests
    (readMoreTextLength : Q) :
  let profile :=
    (getVisualLengthHelper NFC (lastRowForWidthCalc props lines)
       (shortWidthCharacters props) (longWidthCharacters props)
       (cache_after NFC requests)).1 in
  let width :=
    match lastRow props lines with
    | Some row => line_width row
    | None => 0%Q
    end in
  let len := nat_to_Q (visualLength profile) in
  let naive := (width / len)%Q in
  let balance :=
    (nat_to_Q (emojiCount profile) + 0.5 * nat_to_Q (longCharCount profile)
     - 0.5 * nat_to_Q (shortCharCount profile))%Q in
  ¬ (len == 0)%Q →
  ((slice_call_arguments props lines profile readMoreTextLength).1.2
   = avgCharWidth_of width profile)
  ∧ ((balance < 0)%Q →
     (avgCharWidth_of width profile
      == naive * (1 + Qabs balance / len))%Q)
  ∧ ((0 < balance)%Q →
     (avgCharWidth_of width profile
      == naive * (1 - Qabs balance / len))%Q)
  ∧ ((balance == 0)%Q → (avgCharWidth_of width profile == naive)%Q).
Proof.
  intros profile width vl naive balance Hvl.
  split; [done|].
  assert (Hpos : (0 <? visualLength profile) = true).
  { apply Nat.ltb_lt. apply Nat.neq_0_lt_0. intros E.
    apply Hvl. subst vl. by rewrite E. }
  unfold avgCharWidth_of. rewrite Hpos.
  change (balance_of profile) with balance.
  fold vl. fold naive.
  destruct (Qeq_bool balance 0) eqn:Eb.
  - apply Qeq_bool_iff in Eb. repeat split; intros H; try done.
    + rewrite Eb in H. by apply Qlt_irrefl in H.
    + rewrite Eb in H. by apply Qlt_irrefl in H.
  - apply Qeq_bool_neq in Eb.
    destruct (Qle_bool 0 balance) eqn:El; simpl.
    + apply Qle_bool_iff in El. repeat split; intros H; try done.
      exfalso. apply (Qlt_irrefl 0). by eapply Qle_lt_trans.
    + assert (¬ (0 <= balance)%Q) as Hn
        by (intros H; apply Qle_bool_iff in H; congruence).
      repeat split; intros H; try done.
      exfalso. apply Hn. by apply Qlt_le_weak.
Qed.

Lemma avgCharWidth_balance_adjustment_witness :
  let props := {| numberOfLines := 1; children := js "iii and more";
                  readMoreText := None; compensationSpaceAndroid := 0;
                  isMonospaced := false; shortWidthCharacters := [];
                  longWidthCharacters := [] |} in
  let lines := [ {| line_text := js "iii"; line_width := 30 |};
                 {| line_text := js " and more"; line_width := 90 |} ] in
  let profile :=
    (getVisualLengthHelper (fun s => s) (lastRowForWidthCalc props lines)
       [] [] (cache_after (fun s => s) [])).1 in
  ¬ (nat_to_Q (visualLength profile) == 0)%Q
  ∧ (avgCharWidth_of 30 profile == 15)%Q.
Proof.
  intros props lines profile.
  assert (H : ¬ (nat_to_Q (visualLength profile) == 0)%Q)
    by (vm_compute; discriminate).
  split; [exact H|].
  destruct (avgCharWidth_balance_adjustment (fun s => s) props lines [] 0 H)
    as (_ & Hneg & _ & _).
  etransitivity; [apply Hneg|]; vm_compute; reflexivity.
Defined.

(** ** A last row of visual length zero *)

Lemma visual_length_body_inv normalized re st idx e :
  counted_inv re st →
  exec EMOJI_REGEX normalized re = Some (idx, e) →
  (visual_length_body st idx e).2 = false
  ∧ counted_inv e (visual_length_body st idx e).1.
Proof.
  intros [Hl _] _. destruct st as [[vl ec] li]. unfold visual_length_body.
  split; [done|]. split; [done|]. right. simpl.
  destruct (li <? idx); lia.
Qed.

Lemma visual_length_positive normalized :
  normalized ≠ [] →
  let '((visualLength, _, lastIndex), _) :=
    while_exec EMOJI_REGEX normalized visual_length_body 0 (0, 0, 0) in
  0 < (if lastIndex <? length normalized
       then visualLength + (length normalized - lastIndex)
       else visualLength).
Proof.
  intros Hne. unfold while_exec.
  destruct (exec_loop_invariant EMOJI_REGEX normalized visual_length_body
              counted_inv EMOJI_REGEX_ok
              (visual_length_body_inv normalized)
              (S (length normalized)) 0 (0, 0, 0))
    as (final & (Hl & Hc) & _); [lia | lia | by split; [|left] |].
  destruct (exec_loop _ _ _ _ _ _) as [[[vl ec] li] re].
  simpl in Hl, Hc. subst li.
  destruct (final <? length normalized) eqn:L.
  - apply Nat.ltb_lt in L. lia.
  - apply Nat.ltb_ge in L. destruct Hc as [->|?]; [|done].
    destruct normalized; [done | simpl in L; lia].
Qed.

Section ZeroVisualLength.

Variable NFC : jsstring → jsstring.

(** Normalising a string that is not empty does not give the empty string. *)
Hypothesis NFC_nonempty : ∀ s, s ≠ [] → NFC s ≠ [].



End ZeroVisualLength.



(** * Further properties of the helpers and of the component *)

(** ** The normalisation cache as a memo table *)

(** X1: what [getNormalizedString] returns is in the cache afterwards under
    the text it was asked for, and asking again returns the same string and
    leaves the cache as it is. *)
Theorem getNormalizedString_memo (NFC : jsstring → jsstring)
    (text : jsstring) (normalizeCache : gmap (list Z) (list Z)) :
  let '(normalized, cache') := getNormalizedString NFC text normalizeCache in
  cache' !! text = Some normalized
  ∧ getNormalizedString NFC text cache' = (normalized, cache').
Proof.
  unfold getNormalizedString at 1.
  destruct (normalizeCache !! text) as [cached|] eqn:E.
  - split; [done|]. unfold getNormalizedString. by rewrite E.
  - split; [apply lookup_insert_eq|].
    unfold getNormalizedString. by rewrite lookup_insert_eq.
Qed.

Lemma getNormalizedString_size (NFC : jsstring → jsstring)
    (text : jsstring) (normalizeCache : gmap (list Z) (list Z)) :
  size normalizeCache ≤ 1001 →
  size (getNormalizedString NFC text normalizeCache).2 ≤ 1001.
Proof.
  intros H. unfold getNormalizedString.
  destruct (normalizeCache !! text) as [cached|] eqn:E; [done|]. simpl.
  destruct (1000 <? size normalizeCache) eqn:L.
  - rewrite map_size_insert_None by apply lookup_empty.
    rewrite map_size_empty. lia.
  - apply Nat.ltb_ge in L. rewrite map_size_insert_None by done. lia.
Qed.

(** X2: the cache never holds more than 1001 entries, whatever texts it has
    been asked for: it is emptied before an insertion once it holds more
    than 1000. *)
Theorem normalizeCache_bounded NFC (requests : list jsstring) :
  size (cache_after NFC requests) ≤ 1001.
Proof.
  unfold cache_after.
  assert (H : size (∅ : gmap (list Z) (list Z)) ≤ 1001)
    by (rewrite map_size_empty; lia).
  revert H. generalize (∅ : gmap (list Z) (list Z)).
  induction requests as [|text requests IH]; intros c Hc; [done|].
  simpl. apply IH. by apply getNormalizedString_size.
Qed.

(** ** Two loops over the same matches *)

(** Two bodies that keep a relation between their locals, and break
    together, leave the loop with related locals and the same
    [lastIndex]. *)
Lemma exec_loop_rel {A B : Type} (m : matcher) (str : jsstring)
    (bodyA : A → nat → nat → A * bool) (bodyB : B → nat → nat → B * bool)
    (R : A → B → Prop) :
  (∀ a b idx e, R a b →
     (bodyA a idx e).2 = (bodyB b idx e).2
     ∧ R (bodyA a idx e).1 (bodyB b idx e).1) →
  ∀ fuel lastIndex a b, R a b →
    R (exec_loop m str bodyA fuel lastIndex a).1
      (exec_loop m str bodyB fuel lastIndex b).1
    ∧ (exec_loop m str bodyA fuel lastIndex a).2
      = (exec_loop m str bodyB fuel lastIndex b).2.
Proof.
  intros Hbody. induction fuel as [|fuel IH]; intros li a b HR; [done|].
  simpl. destruct (exec m str li) as [[idx e]|]; [|done].
  destruct (Hbody a b idx e HR) as [Hb HR'].
  destruct (bodyA a idx e) as [a' ba], (bodyB b idx e) as [b' bb].
  simpl in *. subst bb. destruct ba; [done|]. by apply IH.
Qed.

(** ** The width of a space *)
























(** ** The counts of [getVisualLengthHelper] *)

Lemma length_chars (s : jsstring) : length (chars s) ≤ length s.
Proof.
  pose proof (Nat.le_refl (length s)) as Hle.
  revert Hle. generalize (length s) at 2. intros n.
  revert s. induction n as [|n IH]; intros s Hle.
  - destruct s; [done | simpl in Hle; lia].
  - destruct s as [|a [|b t]]; [simpl; lia..|]. simpl in *.
    destruct (is_high_surrogate a && is_low_surrogate b); simpl.
    + specialize (IH t ltac:(lia)). lia.
    + specialize (IH (b :: t) ltac:(simpl; lia)). simpl in IH. lia.
Qed.

Lemma visual_length_body_counting normalized re st idx e :
  counting_inv normalized re st →
  exec EMOJI_REGEX normalized re = Some (idx, e) →
  (visual_length_body st idx e).2 = false
  ∧ counting_inv normalized e (visual_length_body st idx e).1.
Proof.
  intros (Hl & Hre & Hec & Hvl) E. destruct st as [[vl ec] li].
  simpl in *. subst li.
  apply exec_bounds in E as (?&?&?); [|apply EMOJI_REGEX_ok].
  unfold visual_length_body. split; [done|].
  repeat split; simpl; [done | | ]; destruct (re <? idx) eqn:L; lia.
Qed.

Lemma visual_length_range (normalized : jsstring) :
  let '((visualLength, emojiCount, lastIndex), _) :=
    while_exec EMOJI_REGEX normalized visual_length_body 0 (0, 0, 0) in
  emojiCount ≤ (if lastIndex <? length normalized
                then visualLength + (length normalized - lastIndex)
                else visualLength)
  ∧ (if lastIndex <? length normalized
     then visualLength + (length normalized - lastIndex)
     else visualLength) ≤ length normalized.
Proof.
  unfold while_exec.
  destruct (exec_loop_invariant EMOJI_REGEX normalized visual_length_body
              (counting_inv normalized) EMOJI_REGEX_ok
              (visual_length_body_counting normalized)
              (S (length normalized)) 0 (0, 0, 0))
    as (final & (Hl & Hre & Hec & Hvl) & _);
    [lia | lia | by repeat split; simpl; lia |].
  destruct (exec_loop _ _ _ _ _ _) as [[[vl ec] li] re].
  simpl in *. subst li. destruct (final <? length normalized) eqn:L.
  - apply Nat.ltb_lt in L. lia.
  - lia.
Qed.

(** X3: in the profile that [getVisualLengthHelper] returns, the emoji are
    no more than the visual units, the visual units no more than the UTF-16
    code units of the normalised text, and the short and the long characters
    each no more than the code units of the text. *)
Theorem getVisualLengthHelper_bounds (NFC : jsstring → jsstring)
    (text : jsstring) (customShort customLong : list jsstring)
    (requests : list jsstring) :
  let profile :=
    (getVisualLengthHelper NFC text customShort customLong
       (cache_after NFC requests)).1 in
  emojiCount profile ≤ visualLength profile
  ∧ visualLength profile ≤ length (NFC text)
  ∧ shortCharCount profile ≤ length text
  ∧ longCharCount profile ≤ length text.
Proof.
  unfold getVisualLengthHelper. destruct text as [|a t].
  { simpl. lia. }
  destruct (getNormalizedString_consistent NFC (a :: t) _
              (cache_after_consistent NFC requests)) as [E _].
  destruct (getNormalizedString NFC (a :: t) _) as [normalized c1].
  cbn [fst] in E. subst normalized.
  pose proof (visual_length_range (NFC (a :: t))) as Hr.
  destruct (while_exec _ _ _ _ _) as [[[vl ec] li] re].
  cbn [fst visualLength emojiCount shortCharCount longCharCount].
  destruct Hr as [H1 H2]. split; [done|]. split; [done|].
  pose proof (length_chars (a :: t)) as Hc.
  split.
  - unfold countShortCharactersHelper.
    etrans; [apply length_filter | done].
  - etrans; [apply length_filter | done].
Qed.

(** ** The slice position stays within the visual length *)

Lemma total_length_agrees (normalized : jsstring) :
  let '((visualLength, _, lastIndex), _) :=
    while_exec EMOJI_REGEX normalized visual_length_body 0 (0, 0, 0) in
  let '((totalLength, lastIndex'), _) :=
    while_exec EMOJI_REGEX normalized total_length_body 0 (0, 0) in
  totalLength = visualLength ∧ lastIndex' = lastIndex.
Proof.
  unfold while_exec.
  destruct (exec_loop_rel EMOJI_REGEX normalized visual_length_body
              total_length_body
              (fun a b => b.1 = a.1.1 ∧ b.2 = a.2)
              ltac:(intros [[vl ec] li] [tl li'] idx e [H1 H2];
                    simpl in *; subst; done)
              (S (length normalized)) 0 (0, 0, 0) (0, 0) ltac:(done))
    as [[H1 H2] _].
  destruct (exec_loop _ _ visual_length_body _ _ _) as [[[vl ec] li] re].
  by destruct (exec_loop _ _ total_length_body _ _ _) as [[tl li'] re'].
Qed.

Lemma mark_total_agrees (normalized : jsstring) :
  let '((visualLength, _, lastIndex), _) :=
    while_exec EMOJI_REGEX normalized visual_length_body 0 (0, 0, 0) in
  let '((totalVisualLength, _, lastIndex', _), _) :=
    while_exec EMOJI_REGEX normalized mark_body 0 (0, ∅, 0, 0) in
  totalVisualLength = visualLength ∧ lastIndex' = lastIndex.
Proof.
  unfold while_exec.
  destruct (exec_loop_rel EMOJI_REGEX normalized visual_length_body
              mark_body
              (fun a b => b.1.1.1 = a.1.1 ∧ b.1.2 = a.2)
              ltac:(intros [[vl ec] li] [[[tv ep] li'] vp] idx e [H1 H2];
                    simpl in *; subst; split; [done|];
                    split; [destruct (li <? idx); lia | done])
              (S (length normalized)) 0 (0, 0, 0) (0, ∅, 0, 0) ltac:(done))
    as [[H1 H2] _].
  destruct (exec_loop _ _ visual_length_body _ _ _) as [[[vl ec] li] re].
  by destruct (exec_loop _ _ mark_body _ _ _) as [[[[tv ep] li'] vp] re'].
Qed.

(** The two branches answer within the visual length of the normalised
    string, and with at least one unit when there is one. *)
Lemma slice_position_monospaced_range (normalized : jsstring) (cw tw : Q) :
  let '((visualLength, _, lastIndex), _) :=
    while_exec EMOJI_REGEX normalized visual_length_body 0 (0, 0, 0) in
  let total := if lastIndex <? length normalized
               then visualLength + (length normalized - lastIndex)
               else visualLength in
  (- Z.of_nat total ≤ slice_position_monospaced normalized cw tw ≤ 0)%Z
  ∧ (0 < total → (slice_position_monospaced normalized cw tw ≤ -1)%Z).
Proof.
  pose proof (total_length_agrees normalized) as Ht.
  unfold slice_position_monospaced.
  destruct (while_exec _ _ visual_length_body _ _) as [[[vl ec] li] re].
  destruct (while_exec _ _ total_length_body _ _) as [[tl li'] re'].
  destruct Ht as [-> ->].
  destruct (while_exec _ _ mono_mark_body _ _) as [[[ep li''] vp] re''].
  set (total := if li <? length normalized then _ else _).
  destruct (mono_scan_bounds normalized cw tw ep total total 0%Q 0)
    as [H0 H1]; [lia|].
  destruct total; [rewrite H0 by done; lia|].
  specialize (H1 ltac:(lia)). lia.
Qed.

Lemma slice_position_proportional_range (normalized : jsstring) (cw tw : Q)
    (allShort allLong : gset (list Z)) :
  let '((visualLength, _, lastIndex), _) :=
    while_exec EMOJI_REGEX normalized visual_length_body 0 (0, 0, 0) in
  let total := if lastIndex <? length normalized
               then visualLength + (length normalized - lastIndex)
               else visualLength in
  (- Z.of_nat total
   ≤ slice_position_proportional normalized cw tw allShort allLong ≤ 0)%Z
  ∧ (0 < total →
     (slice_position_proportional normalized cw tw allShort allLong ≤ -1)%Z).
Proof.
  pose proof (mark_total_agrees normalized) as Ht.
  unfold slice_position_proportional.
  destruct (while_exec _ _ visual_length_body _ _) as [[[vl ec] li] re].
  destruct (while_exec _ _ mark_body _ _) as [[[[tv ep] li'] vp] re'].
  destruct Ht as [-> ->].
  set (total := if li <? length normalized then _ else _).
  destruct (prop_scan_bounds normalized cw tw allShort allLong ep total total
              0%Q 0 0) as [H0 H1]; [lia|].
  destruct total; [rewrite H0 by done; lia|].
  specialize (H1 ltac:(lia)). lia.
Qed.

(** X4: [calculateSlicePositionHelper] never asks to drop more units than
    [getVisualLengthHelper] counts in the same text: its result lies between
    minus that visual length and 0, in both modes, for any lists and any
    states of the cache. *)
Theorem calculateSlicePositionHelper_range (NFC : jsstring → jsstring)
    (text : jsstring) (charWidth targetWidth : Q) (isMonospaced : bool)
    (customShort customLong customShort' customLong' : list jsstring)
    (requests requests' : list jsstring) :
  (- Z.of_nat (visualLength
                 (getVisualLengthHelper NFC text customShort' customLong'
                    (cache_after NFC requests')).1)
   ≤ (calculateSlicePositionHelper NFC text charWidth targetWidth
        isMonospaced customShort customLong (cache_after NFC requests)).1
   ≤ 0)%Z.
Proof.
  unfold calculateSlicePositionHelper, getVisualLengthHelper.
  destruct text as [|a t]; [done|].
  destruct (getNormalizedString_consistent NFC (a :: t) _
              (cache_after_consistent NFC requests)) as [E _].
  destruct (getNormalizedString_consistent NFC (a :: t) _
              (cache_after_consistent NFC requests')) as [E' _].
  destruct (getNormalizedString NFC (a :: t) (cache_after NFC requests))
    as [normalized c1].
  destruct (getNormalizedString NFC (a :: t) (cache_after NFC requests'))
    as [normalized' c1'].
  cbn [fst] in E, E'. subst normalized normalized'.
  pose proof (slice_position_monospaced_range (NFC (a :: t)) charWidth
                targetWidth) as Hm.
  pose proof (slice_position_proportional_range (NFC (a :: t)) charWidth
                targetWidth (allShortCharacters customShort)
                (allLongCharacters customLong)) as Hp.
  destruct (while_exec _ _ visual_length_body _ _) as [[[vl ec] li] re].
  cbn [fst visualLength].
  destruct (bool_decide (a :: t = []) || Qle_bool targetWidth 0); simpl.
  { lia. }
  destruct isMonospaced; simpl; [apply Hm | apply Hp].
Qed.

(** X5: for a text that is not empty and a target above zero, the slice
    position is at most -1: at least one unit is dropped. The normal form of
    a text that is not empty is taken not to be empty. *)
Theorem calculateSlicePositionHelper_drops_one (NFC : jsstring → jsstring)
    (text : jsstring) (charWidth targetWidth : Q) (isMonospaced : bool)
    (customShort customLong : list jsstring) (requests : list jsstring) :
  (∀ s, s ≠ [] → NFC s ≠ []) →
  text ≠ [] → (0 < targetWidth)%Q →
  ((calculateSlicePositionHelper NFC text charWidth targetWidth
      isMonospaced customShort customLong (cache_after NFC requests)).1
   ≤ -1)%Z.
Proof.
  intros HN Hne Ht. unfold calculateSlicePositionHelper.
  rewrite bool_decide_eq_false_2 by done.
  assert (Qle_bool targetWidth 0 = false) as ->.
  { destruct (Qle_bool targetWidth 0) eqn:E; [|done].
    apply Qle_bool_iff in E. exfalso. apply (Qlt_irrefl 0).
    by eapply Qlt_le_trans. }
  simpl.
  destruct (getNormalizedString_consistent NFC text _
              (cache_after_consistent NFC requests)) as [E _].
  destruct (getNormalizedString NFC text _) as [normalized c1].
  cbn [fst] in E. subst normalized.
  pose proof (visual_length_positive (NFC text) (HN text Hne)) as Hpos.
  pose proof (slice_position_monospaced_range (NFC text) charWidth
                targetWidth) as Hm.
  pose proof (slice_position_proportional_range (NFC text) charWidth
                targetWidth (allShortCharacters customShort)
                (allLongCharacters customLong)) as Hp.
  destruct (while_exec _ _ visual_length_body _ _) as [[[vl ec] li] re].
  destruct isMonospaced; simpl; [by apply Hm | by apply Hp].
Qed.

Lemma calculateSlicePositionHelper_drops_one_witness :
  (∀ s : jsstring, s ≠ [] → (fun s => s) s ≠ [])
  ∧ js "ab" ≠ [] ∧ (0 < 1)%Q
  ∧ ((calculateSlicePositionHelper (fun s => s) (js "ab") 1 1 false [] []
        (cache_after (fun s => s) [])).1 ≤ -1)%Z.
Proof.
  assert (H1 : ∀ s : jsstring, s ≠ [] → (fun s => s) s ≠ [])
    by (intros s Hs; exact Hs).
  assert (H2 : js "ab" ≠ []) by done.
  assert (H3 : (0 < 1)%Q) by reflexivity.
  split; [exact H1|]. split; [exact H2|]. split; [exact H3|].
  apply (calculateSlicePositionHelper_drops_one (fun s => s) (js "ab") 1 1
           false [] [] [] H1 H2 H3).
Defined.

(** ** Slices of a text *)

Lemma segments_of_nonempty (text : jsstring) :
  text ≠ [] → 0 < length (segments_of text).
Proof.
  intros Hne. pose proof (concat_segments_of text) as Hc.
  destruct (segments_of text); [simpl in Hc; congruence | simpl; lia].
Qed.

(** Every slice is a run of consecutive segments, joined. *)
Lemma visualSliceHelper_segments (text : jsstring) (start : Z)
    (end_ : option Z) :
  ∃ i j,
    visualSliceHelper text start end_
    = concat (take j (drop i (segments_of text))).
Proof.
  unfold visualSliceHelper. destruct text as [|c t].
  { by exists 0, 0. }
  set (text := c :: t). clearbody text.
  destruct (_ <=? start)%Z; [by exists 0, 0|].
  destruct (_ <=? _)%Z; [by exists 0, 0|].
  eexists _, _. reflexivity.
Qed.

Lemma visualSliceHelper_is_part (text : jsstring) (start : Z)
    (end_ : option Z) :
  is_part (visualSliceHelper text start end_) text.
Proof.
  destruct (visualSliceHelper_segments text start end_) as (i & j & ->).
  exists (concat (take i (segments_of text))),
         (concat (drop j (drop i (segments_of text)))).
  rewrite <- !concat_app, take_drop, take_drop. symmetry.
  apply concat_segments_of.
Qed.

(** X8: a slice is a part of the text: the text is something, then the
    slice, then something; so a slice never holds a character that is not
    in the text, nor the characters of the text out of order. *)
Theorem visualSliceHelper_infix (text : jsstring) (start : Z)
    (end_ : option Z) :
  ∃ before after,
    text = before ++ visualSliceHelper text start end_ ++ after.
Proof.
  destruct (visualSliceHelper_segments text start end_) as (i & j & ->).
  exists (concat (take i (segments_of text))),
         (concat (drop j (drop i (segments_of text)))).
  rewrite <- !concat_app, take_drop, take_drop. symmetry.
  apply concat_segments_of.
Qed.

(** X9: cutting a text at one visual position loses nothing: for every
    position [k], negative or not, the slice up to [k] followed by the slice
    from [k] on is the text. *)
Theorem visualSliceHelper_split (text : jsstring) (k : Z) :
  visualSliceHelper text 0 (Some k) ++ visualSliceHelper text k None = text.
Proof.
  destruct text as [|c t]; [done|].
  unfold visualSliceHelper. set (text := c :: t).
  assert (Hne : text ≠ []) by done.
  pose proof (concat_segments_of text) as Hc.
  pose proof (segments_of_nonempty text Hne) as Hpos. clearbody text.
  set (segs := segments_of text) in *.
  set (total := Z.of_nat (length segs)) in *.
  assert (Ht : (0 < total)%Z) by (subst total; lia).
  destruct (total <=? 0)%Z eqn:L0; [lia|].
  change (0 <? 0)%Z with false. cbv iota.
  replace (0 `max` (0 `min` total))%Z with 0%Z by lia.
  replace (0 `max` (total `min` total))%Z with total by lia.
  change (Z.to_nat 0) with 0. rewrite drop_0.
  set (e := if (k <? 0)%Z then (0 `max` (total + k))%Z else k).
  set (cut := (0 `max` (e `min` total))%Z).
  assert (Hcut : (0 ≤ cut ≤ total)%Z) by lia.
  destruct (total <=? k)%Z eqn:Lk.
  - apply Z.leb_le in Lk.
    assert (cut = total) as ->
      by (subst cut e; destruct (k <? 0)%Z eqn:?; lia).
    destruct (total <=? 0)%Z; [lia|].
    rewrite app_nil_r. subst total. rewrite Nat2Z.id, Nat.sub_0_r.
    by rewrite take_ge.
  - apply Z.leb_gt in Lk.
    assert (Hlt : (cut < total)%Z)
      by (subst cut e; destruct (k <? 0)%Z eqn:?; lia).
    destruct (total <=? cut)%Z eqn:Lc; [lia|].
    subst total. rewrite Nat2Z.id.
    rewrite (take_ge (drop _ _))
      by (rewrite length_drop; lia).
    destruct (cut <=? 0)%Z eqn:Lz.
    + apply Z.leb_le in Lz. assert (cut = 0%Z) as -> by lia.
      change (Z.to_nat 0) with 0. by rewrite drop_0.
    + rewrite Nat.sub_0_r, <- concat_app, take_drop. done.
Qed.

(** ** The caller's lists and the built-in ones *)

Lemma has_allShortCharacters (customShort : list jsstring) (char : jsstring) :
  has (allShortCharacters customShort) char = true
  ↔ char ∈ customShort ∨ char ∈ SHORT_CHARACTERS_list.
Proof.
  unfold has, allShortCharacters, SHORT_CHARACTERS.
  rewrite bool_decide_eq_true.
  destruct (0 <? length customShort) eqn:E.
  - by rewrite elem_of_list_to_set, elem_of_app.
  - destruct customShort; [|done].
    rewrite elem_of_list_to_set. split; [by right|].
    intros [H|H]; [by apply elem_of_nil in H | done].
Qed.

Lemma length_filter_impl {A : Type} (P1 P2 : A → Prop)
    `{!∀ x, Decision (P1 x)} `{!∀ x, Decision (P2 x)} (l : list A) :
  (∀ x, P1 x → P2 x) →
  length (filter P1 l) ≤ length (filter P2 l).
Proof.
  intros Himp. induction l as [|x l IH]; [done|].
  rewrite !filter_cons.
  destruct (decide (P1 x)) as [H1|H1].
  - destruct (decide (P2 x)) as [H2|H2]; [simpl; lia | by apply Himp in H1].
  - destruct (decide (P2 x)); simpl; lia.
Qed.

(** X11: [countShortCharactersHelper] counts code points, so never more
    than the text has code units; and a list from the caller can only raise
    the count it gives without one. *)
Theorem countShortCharactersHelper_bounds (input : jsstring)
    (customShort : list jsstring) :
  countShortCharactersHelper input [] ≤ countShortCharactersHelper input customShort
  ∧ countShortCharactersHelper input customShort ≤ length (chars input)
  ∧ length (chars input) ≤ length input.
Proof.
  unfold countShortCharactersHelper. split; [|split].
  - apply length_filter_impl. intros x Hx.
    apply has_allShortCharacters in Hx. apply has_allShortCharacters.
    destruct Hx as [Hx|Hx]; [by apply elem_of_nil in Hx | by right].
  - apply length_filter.
  - apply length_chars.
Qed.

(** ** The truncating branch of [calculateTruncatedText] *)

Lemma is_part_trans (a b c : jsstring) : is_part a b → is_part b c → is_part a c.
Proof.
  intros (l1 & l2 & ->) (k1 & k2 & ->).
  exists (k1 ++ l1), (l2 ++ k2). by rewrite <- !(assoc_L (++)).
Qed.

Lemma is_part_prefix (a b : jsstring) : a `prefix_of` b → is_part a b.
Proof. intros [k ->]. by exists [], k. Qed.

Lemma trimStart_suffix (s : jsstring) : trimStart s `suffix_of` s.
Proof.
  induction s as [|c t IH]; simpl; [done|].
  destruct (is_trim_space c); [by apply suffix_cons_r | done].
Qed.

Lemma head_trimStart (s : jsstring) (c : Z) :
  head (trimStart s) = Some c → is_trim_space c = false.
Proof.
  induction s as [|a t IH]; simpl; [done|].
  destruct (is_trim_space a) eqn:E; [done|]. simpl. by intros [= <-].
Qed.

Lemma is_part_trim (s : jsstring) : is_part (trim s) s.
Proof.
  unfold trim.
  destruct (trimStart_suffix s) as [l1 H1].
  destruct (trimStart_suffix (reverse (trimStart s))) as [k H2].
  exists l1, (reverse k).
  rewrite <- reverse_app, <- H2, reverse_involutive. done.
Qed.

Lemma trim_ends (s : jsstring) :
  (∀ c, head (trim s) = Some c → is_trim_space c = false)
  ∧ (∀ c, last (trim s) = Some c → is_trim_space c = false).
Proof.
  unfold trim. split; intros c.
  - rewrite head_reverse. intros Hl.
    destruct (trimStart_suffix (reverse (trimStart s))) as [k H2].
    apply (head_trimStart s). rewrite <- last_reverse, H2.
    by apply last_app_Some; left.
  - rewrite last_reverse. apply head_trimStart.
Qed.

Lemma line_at_in_range (lines : list TextLayoutLine) (n : nat) :
  1 ≤ n ≤ length lines →
  is_Some (line_at lines (Z.of_nat n - 1)).
Proof.
  intros H. unfold line_at.
  destruct (Z.of_nat n - 1 <? 0)%Z eqn:L; [apply Z.ltb_lt in L; lia|].
  apply lookup_lt_is_Some_2. lia.
Qed.

Lemma truncatedText_result (NFC : jsstring → jsstring) (props : Props)
    (lines : list TextLayoutLine) (containerWidth : Q)
    (normalizeCache : gmap (list Z) (list Z)) :
  1 ≤ numberOfLines props ≤ length lines →
  ∃ truncated cache',
    truncatedText NFC props lines containerWidth normalizeCache
    = Some (truncated, cache')
    ∧ is_part truncated (visibleText_of props lines)
    ∧ (∀ c, head truncated = Some c → is_trim_space c = false)
    ∧ (∀ c, last truncated = Some c → is_trim_space c = false).
Proof.
  intros Hn. unfold truncatedText.
  destruct (getVisualLengthHelper NFC _ _ _ _) as [p c1].
  destruct (line_at_in_range lines (numberOfLines props) Hn) as [row ->].
  destruct (calculateStringWidthHelper NFC _ _ _ _ _ _) as [w c2].
  fold (visibleText_of props lines).
  set (visible := if endsWith_newline _ then _ else _).
  assert (Hv : visible `prefix_of` visibleText_of props lines).
  { subst visible. destruct (endsWith_newline _); [apply prefix_take | done]. }
  destruct (if Qle_bool _ _ then _ else _) as [sliceEndOffset c3].
  eexists _, _. split; [done|].
  pose proof (trim_ends (visualSliceHelper visible 0
                (match sliceEndOffset with
                 | Some position =>
                     if (position =? 0)%Z then None else Some position
                 | None => None
                 end))) as [Hh Hl].
  split; [|done].
  eapply is_part_trans; [apply is_part_trim|].
  eapply is_part_trans; [apply visualSliceHelper_is_part|].
  by apply is_part_prefix.
Qed.

(** X12: with at least one line to keep and more lines reported than that,
    once the container width is known, [calculateTruncatedText] completes
    and asks for the affordance; the text it stores, in [fullTextRef] and in
    [truncatedTextRef] alike, is a run of consecutive code units of the
    visible lines joined, and neither starts nor ends with white space or a
    line break. *)
Theorem calculateTruncatedText_truncates (NFC : jsstring → jsstring)
    (props : Props) (comp : Component)
    (normalizeCache : gmap (list Z) (list Z)) :
  1 ≤ numberOfLines props →
  numberOfLines props < length (textLinesRef comp) →
  ¬ (containerWidthRef comp == 0)%Q →
  ∃ comp' cache',
    calculateTruncatedText NFC props comp normalizeCache
    = Some (comp', cache')
    ∧ isNeedReadMore comp' = true
    ∧ isCalculationCompleteRef comp' = true
    ∧ hasPropsChangedRef comp' = false
    ∧ renderTrigger comp' = negb (renderTrigger comp)
    ∧ truncatedTextRef comp' = fullTextRef comp'
    ∧ is_part (fullTextRef comp')
        (visibleText_of props (textLinesRef comp))
    ∧ (∀ c, head (fullTextRef comp') = Some c → is_trim_space c = false)
    ∧ (∀ c, last (fullTextRef comp') = Some c → is_trim_space c = false).
Proof.
  intros H1 H2 Hw. unfold calculateTruncatedText.
  destruct (length (textLinesRef comp) =? 0) eqn:E0;
    [apply Nat.eqb_eq in E0; lia|].
  destruct (Qeq_bool (containerWidthRef comp) 0) eqn:Ew;
    [by apply Qeq_bool_iff in Ew|].
  simpl. destruct (numberOfLines props <? _) eqn:L;
    [|apply Nat.ltb_ge in L; lia].
  destruct (truncatedText_result NFC props (textLinesRef comp)
              (containerWidthRef comp) normalizeCache ltac:(lia))
    as (t & c' & -> & Hp & Hh & Hl).
  eexists _, _. split; [done|]. by repeat split.
Qed.

Lemma calculateTruncatedText_truncates_witness :
  let props := {| numberOfLines := 1; children := js "one two three";
                  readMoreText := None; compensationSpaceAndroid := 0;
                  isMonospaced := false; shortWidthCharacters := [];
                  longWidthCharacters := [] |} in
  let comp := {| isNeedReadMore := false; renderTrigger := false;
                 isShowingFullTextRef := false;
                 fullTextRef := js "one two three";
                 truncatedTextRef := js "one two three";
                 containerWidthRef := 80;
                 textLinesRef := [ {| line_text := js "one two ";
                                      line_width := 80 |};
                                   {| line_text := js "three";
                                      line_width := 50 |} ];
                 isCalculationCompleteRef := false;
                 hasPropsChangedRef := true;
                 oldChildren := js "one two three" |} in
  1 ≤ numberOfLines props
  ∧ numberOfLines props < length (textLinesRef comp)
  ∧ ¬ (containerWidthRef comp == 0)%Q
  ∧ ∃ comp' cache',
      calculateTruncatedText (fun s => s) props comp ∅ = Some (comp', cache')
      ∧ isNeedReadMore comp' = true.
Proof.
  intros props comp.
  assert (H1 : 1 ≤ numberOfLines props) by (simpl; lia).
  assert (H2 : numberOfLines props < length (textLinesRef comp))
    by (simpl; lia).
  assert (H3 : ¬ (containerWidthRef comp == 0)%Q) by (vm_compute; discriminate).
  split; [exact H1|]. split; [exact H2|]. split; [exact H3|].
  destruct (calculateTruncatedText_truncates (fun s => s) props comp ∅
              H1 H2 H3) as (comp' & cache' & E & Hn & _).
  exists comp', cache'. by split.
Defined.

(** X13: with [numberOfLines] zero and both layouts known, the calculation
    does not return: it reads [width] of the line at index -1, which is
    [undefined], and throws. *)
Theorem calculateTruncatedText_zero_lines (NFC : jsstring → jsstring)
    (props : Props) (comp : Component)
    (normalizeCache : gmap (list Z) (list Z)) :
  numberOfLines props = 0 → textLinesRef comp ≠ [] →
  ¬ (containerWidthRef comp == 0)%Q →
  calculateTruncatedText NFC props comp normalizeCache = None.
Proof.
  intros Hn Hl Hw. unfold calculateTruncatedText.
  destruct (textLinesRef comp) as [|row rest] eqn:El; [done|].
  destruct (Qeq_bool (containerWidthRef comp) 0) eqn:Ew;
    [by apply Qeq_bool_iff in Ew|].
  rewrite Hn. simpl (_ || _). cbv iota.
  change (0 <? length (row :: rest)) with true. cbv iota.
  unfold truncatedText. rewrite Hn.
  destruct (getVisualLengthHelper NFC _ _ _ _) as [p c1]. done.
Qed.

Lemma calculateTruncatedText_zero_lines_witness :
  let props := {| numberOfLines := 0; children := js "text";
                  readMoreText := None; compensationSpaceAndroid := 0;
                  isMonospaced := false; shortWidthCharacters := [];
                  longWidthCharacters := [] |} in
  let comp := {| isNeedReadMore := false; renderTrigger := false;
                 isShowingFullTextRef := false; fullTextRef := js "text";
                 truncatedTextRef := js "text"; containerWidthRef := 80;
                 textLinesRef := [ {| line_text := js "text";
                                      line_width := 40 |} ];
                 isCalculationCompleteRef := false;
                 hasPropsChangedRef := true; oldChildren := js "text" |} in
  numberOfLines props = 0 ∧ textLinesRef comp ≠ []
  ∧ ¬ (containerWidthRef comp == 0)%Q
  ∧ calculateTruncatedText (fun s => s) props comp ∅ = None.
Proof.
  intros props comp.
  assert (H1 : numberOfLines props = 0) by reflexivity.
  assert (H2 : textLinesRef comp ≠ []) by done.
  assert (H3 : ¬ (containerWidthRef comp == 0)%Q) by (vm_compute; discriminate).
  split; [exact H1|]. split; [exact H2|]. split; [exact H3|].
  apply (calculateTruncatedText_zero_lines (fun s => s) props comp ∅ H1 H2 H3).
Defined.

(** ** The layout events and the press *)

(** X14: after the first render the two layout events may come in either
    order: reporting the lines and then the container width ends in the same
    component and cache as reporting the width and then the lines. The
    first of the two finds the other measure missing and only stores its
    own. *)
Theorem layout_events_commute (NFC : jsstring → jsstring) (props : Props)
    (lines : list TextLayoutLine) (width : Q)
    (normalizeCache : gmap (list Z) (list Z)) :
  (onTextLayoutHandler NFC props lines (mount props) normalizeCache
     ≫= fun '(c, cache) => onContainerLayout NFC props width c cache)
  = (onContainerLayout NFC props width (mount props) normalizeCache
       ≫= fun '(c, cache) => onTextLayoutHandler NFC props lines c cache).
Proof.
  unfold onTextLayoutHandler at 1, onContainerLayout at 2.
  cbn [mount isCalculationCompleteRef].
  unfold calculateTruncatedText at 1 2.
  cbn [textLinesRef containerWidthRef length Nat.eqb orb].
  change (Qeq_bool 0 0) with true. rewrite orb_true_r.
  cbn [mbind option_bind].
  reflexivity.
Qed.

(** X15: a calculation that had both layouts and returned is final: it sets
    [isCalculationCompleteRef], and from then on a layout event with any
    lines or any width changes neither the component nor the cache. *)
Theorem completed_calculation_is_final (NFC : jsstring → jsstring)
    (props : Props) (comp comp' : Component)
    (normalizeCache cache' : gmap (list Z) (list Z))
    (lines : list TextLayoutLine) (width : Q) :
  textLinesRef comp ≠ [] → ¬ (containerWidthRef comp == 0)%Q →
  calculateTruncatedText NFC props comp normalizeCache = Some (comp', cache') →
  isCalculationCompleteRef comp' = true
  ∧ onTextLayoutHandler NFC props lines comp' cache' = Some (comp', cache')
  ∧ onContainerLayout NFC props width comp' cache' = Some (comp', cache').
Proof.
  intros Hl Hw Hc.
  assert (Hdone : isCalculationCompleteRef comp' = true).
  { unfold calculateTruncatedText in Hc.
    destruct (textLinesRef comp) as [|row rest] eqn:El; [done|].
    destruct (Qeq_bool (containerWidthRef comp) 0) eqn:Ew;
      [by apply Qeq_bool_iff in Ew|].
    simpl in Hc. destruct (numberOfLines props <? S (length rest)).
    - destruct (truncatedText NFC _ _ _ _) as [[t c1]|]; [|done].
      by injection Hc as <- <-.
    - by injection Hc as <- <-. }
  split; [done|].
  unfold onTextLayoutHandler, onContainerLayout. by rewrite Hdone.
Qed.

Lemma completed_calculation_is_final_witness :
  let props := {| numberOfLines := 2; children := js "one line";
                  readMoreText := None; compensationSpaceAndroid := 0;
                  isMonospaced := false; shortWidthCharacters := [];
                  longWidthCharacters := [] |} in
  let comp := {| isNeedReadMore := false; renderTrigger := false;
                 isShowingFullTextRef := false;
                 fullTextRef := js "one line";
                 truncatedTextRef := js "one line";
                 containerWidthRef := 300;
                 textLinesRef := [ {| line_text := js "one line";
                                      line_width := 80 |} ];
                 isCalculationCompleteRef := false;
                 hasPropsChangedRef := true;
                 oldChildren := js "one line" |} in
  ∃ comp' cache',
    textLinesRef comp ≠ [] ∧ ¬ (containerWidthRef comp == 0)%Q
    ∧ calculateTruncatedText (fun s => s) props comp ∅ = Some (comp', cache')
    ∧ onTextLayoutHandler (fun s => s) props [] comp' cache'
      = Some (comp', cache').
Proof.
  intros props comp.
  assert (H1 : textLinesRef comp ≠ []) by done.
  assert (H2 : ¬ (containerWidthRef comp == 0)%Q) by (vm_compute; discriminate).
  destruct (calculateTruncatedText (fun s => s) props comp ∅)
    as [[comp' cache']|] eqn:E; [|vm_compute in E; discriminate].
  exists comp', cache'. split; [exact H1|]. split; [exact H2|].
  split; [reflexivity|].
  apply (completed_calculation_is_final (fun s => s) props comp comp' ∅
           cache' [] 0 H1 H2 E).
Defined.

(** X16: on a component that shows its truncated text, one press shows the
    full text of the props and a second press brings the component back
    exactly as it was. *)
Theorem toggleTextExpansion_twice (props : Props) (comp : Component) :
  isShowingFullTextRef comp = false →
  fullTextRef comp = truncatedTextRef comp →
  fullTextRef (toggleTextExpansion props comp) = children props
  ∧ isShowingFullTextRef (toggleTextExpansion props comp) = true
  ∧ toggleTextExpansion props (toggleTextExpansion props comp) = comp.
Proof.
  intros Hs Hf. destruct comp. simpl in *. subst.
  unfold toggleTextExpansion. simpl. by rewrite negb_involutive.
Qed.

Lemma toggleTextExpansion_twice_witness :
  let props := {| numberOfLines := 1; children := js "one two three";
                  readMoreText := None; compensationSpaceAndroid := 0;
                  isMonospaced := false; shortWidthCharacters := [];
                  longWidthCharacters := [] |} in
  let comp := {| isNeedReadMore := true; renderTrigger := true;
                 isShowingFullTextRef := false; fullTextRef := js "one";
                 truncatedTextRef := js "one"; containerWidthRef := 80;
                 textLinesRef := []; isCalculationCompleteRef := true;
                 hasPropsChangedRef := false;
                 oldChildren := js "one two three" |} in
  isShowingFullTextRef comp = false
  ∧ fullTextRef comp = truncatedTextRef comp
  ∧ toggleTextExpansion props (toggleTextExpansion props comp) = comp.
Proof.
  intros props comp.
  assert (H1 : isShowingFullTextRef comp = false) by reflexivity.
  assert (H2 : fullTextRef comp = truncatedTextRef comp) by reflexivity.
  split; [exact H1|]. split; [exact H2|].
  apply (toggleTextExpansion_twice props comp H1 H2).
Defined.

(** ** The two patterns against each other *)

Lemma simple_tail_opt_FE0F (f f' : nat) (s : jsstring) :
  length s ≤ f → length (opt_FE0F s) ≤ f' →
  simple_tail f s = simple_tail f' (opt_FE0F s).
Proof.
  unfold opt_FE0F. intros L L'.
  destruct (eat_unit 65039 s) as [r|] eqn:E.
  - pose proof (eat_unit_consumes _ _ _ E) as [_ Hl].
    destruct f as [|f]; [lia|]. simpl. rewrite E.
    apply simple_tail_fuel; lia.
  - by apply simple_tail_fuel.
Qed.

Lemma eat_unit_other (u v : Z) (s r : jsstring) :
  u ≠ v → eat_unit u s = Some r → eat_unit v s = None.
Proof.
  destruct s as [|a t]; simpl; [done|].
  destruct (a =? u)%Z eqn:E; [|done]. apply Z.eqb_eq in E. subst a.
  intros Hne _. destruct (u =? v)%Z eqn:E'; [|done].
  apply Z.eqb_eq in E'. done.
Qed.

Lemma simple_tail_beyond_zwj_tail (f' : nat) :
  ∀ f s, length s ≤ f → simple_tail f s `suffix_of` zwj_tail f' s.
Proof.
  induction f' as [|f' IH]; intros f s L; simpl.
  { apply simple_tail_suffix. }
  destruct (eat_unit 8205 s) as [r|] eqn:E1; [|apply simple_tail_suffix].
  destruct (eat_pictographic r) as [r'|] eqn:E2; [|apply simple_tail_suffix].
  pose proof (eat_unit_consumes _ _ _ E1) as [_ H1].
  pose proof (eat_pictographic_consumes _ _ E2) as [_ H2].
  pose proof (suffix_length _ _ (opt_FE0F_suffix r')) as H3.
  destruct f as [|f]; [lia|]. simpl.
  rewrite (eat_unit_other 8205 65039 s r) by done.
  rewrite E1, E2.
  rewrite (simple_tail_opt_FE0F f (length (opt_FE0F r')) r') by lia.
  apply IH. lia.
Qed.

(** X17: wherever [SIMPLE_EMOJI_REGEX], the pattern of the slicer, matches,
    [EMOJI_REGEX], the pattern of the counters, matches too, and its match
    does not go beyond the slicer's: what the counters take as one emoji at
    that place is never cut by the slicer. *)
Theorem SIMPLE_EMOJI_REGEX_covers_EMOJI_REGEX (s r' : jsstring) :
  SIMPLE_EMOJI_REGEX s = Some r' →
  ∃ r, EMOJI_REGEX s = Some r ∧ r' `suffix_of` r.
Proof.
  unfold SIMPLE_EMOJI_REGEX, EMOJI_REGEX.
  destruct (eat_pictographic s) as [r0|]; [|done].
  intros [= <-]. eexists. split; [done|]. cbv zeta.
  rewrite (simple_tail_opt_FE0F (length r0) (length (opt_FE0F r0)) r0)
    by done.
  by apply simple_tail_beyond_zwj_tail.
Qed.

Lemma SIMPLE_EMOJI_REGEX_covers_EMOJI_REGEX_witness :
  SIMPLE_EMOJI_REGEX (grinning_face ++ [0xFE0F; 0xFE0F]%Z ++ js "a")
  = Some (js "a")
  ∧ ∃ r, EMOJI_REGEX (grinning_face ++ [0xFE0F; 0xFE0F]%Z ++ js "a") = Some r
         ∧ js "a" `suffix_of` r.
Proof.
  assert (H : SIMPLE_EMOJI_REGEX
                (grinning_face ++ [0xFE0F; 0xFE0F]%Z ++ js "a")
              = Some (js "a")) by reflexivity.
  split; [exact H|].
  apply (SIMPLE_EMOJI_REGEX_covers_EMOJI_REGEX _ _ H).
Defined.

(** ** A unit width of zero *)

Lemma getCharWidth_zero (cw : Q) (allShort allLong : gset (list Z))
    (char : jsstring) :
  (cw == 0)%Q → (getCharWidth cw allShort allLong char == 0)%Q.
Proof.
  intros H. unfold getCharWidth.
  destruct (bool_decide _); [rewrite H; ring|].
  destruct (has allShort char); [rewrite H; ring|].
  destruct (has allLong char); [rewrite H; ring | done].
Qed.

Lemma Qle_bool_above (tw acc : Q) :
  (0 < tw)%Q → (acc == 0)%Q → Qle_bool tw acc = false.
Proof.
  intros Ht Ha. destruct (Qle_bool tw acc) eqn:E; [|done].
  apply Qle_bool_iff in E. rewrite Ha in E.
  exfalso. apply (Qlt_irrefl 0). by eapply Qlt_le_trans.
Qed.

Lemma mono_scan_zero_width normalized (cw tw : Q) ep total n acc sp :
  (cw == 0)%Q → (0 < tw)%Q → (acc == 0)%Q →
  mono_scan normalized cw tw ep total n acc sp = (- Z.of_nat total)%Z.
Proof.
  intros Hc Ht. revert acc sp. induction n as [|i IH]; intros acc sp Ha; [done|].
  simpl.
  assert (Ha' : (acc + (if has_position ep i then cw * 2 else cw) == 0)%Q)
    by (destruct (has_position ep i); rewrite Ha, Hc; ring).
  rewrite (Qle_bool_above _ _ Ht Ha'). by apply IH.
Qed.

Lemma prop_scan_zero_width (normalized : jsstring) (cw tw : Q)
    (allShort allLong : gset (list Z)) (ep : gmap nat bool)
    (total n : nat) (acc : Q) (sp re : nat) :
  (cw == 0)%Q → (0 < tw)%Q → (acc == 0)%Q →
  prop_scan normalized cw tw allShort allLong ep total n acc sp re
  = (- Z.of_nat total)%Z.
Proof.
  intros Hc Ht. revert acc sp re.
  induction n as [|i IH]; intros acc sp re Ha; [done|].
  simpl.
  destruct (has_position ep i).
  - assert (Ha' : (acc + cw * 2 == 0)%Q) by (rewrite Ha, Hc; ring).
    rewrite (Qle_bool_above _ _ Ht Ha'). by apply IH.
  - destruct (width_char_index normalized i re) as [charIndex re'].
    assert (Ha' : (acc + getCharWidth cw allShort allLong
                           (char_at_or_empty normalized charIndex) == 0)%Q)
      by (rewrite Ha, getCharWidth_zero by done; ring).
    rewrite (Qle_bool_above _ _ Ht Ha'). by apply IH.
Qed.

(** X18: with a unit width of zero and a target above zero the sum never
    reaches the target, and the slice position is minus the whole visual
    length of the text: everything is to be dropped. *)
Theorem calculateSlicePositionHelper_zero_width (NFC : jsstring → jsstring)
    (text : jsstring) (charWidth targetWidth : Q) (isMonospaced : bool)
    (customShort customLong customShort' customLong' : list jsstring)
    (requests requests' : list jsstring) :
  (charWidth == 0)%Q → (0 < targetWidth)%Q →
  (calculateSlicePositionHelper NFC text charWidth targetWidth
     isMonospaced customShort customLong (cache_after NFC requests)).1
  = (- Z.of_nat (visualLength
                   (getVisualLengthHelper NFC text customShort' customLong'
                      (cache_after NFC requests')).1))%Z.
Proof.
  intros Hc Ht.
  unfold calculateSlicePositionHelper, getVisualLengthHelper.
  destruct text as [|a t]; [done|].
  rewrite bool_decide_eq_false_2 by done.
  rewrite (Qle_bool_above targetWidth 0 Ht) by reflexivity. simpl (_ || _).
  cbv iota.
  destruct (getNormalizedString_consistent NFC (a :: t) _
              (cache_after_consistent NFC requests)) as [E _].
  destruct (getNormalizedString_consistent NFC (a :: t) _
              (cache_after_consistent NFC requests')) as [E' _].
  destruct (getNormalizedString NFC (a :: t) (cache_after NFC requests))
    as [normalized c1].
  destruct (getNormalizedString NFC (a :: t) (cache_after NFC requests'))
    as [normalized' c1'].
  cbn [fst] in E, E'. subst normalized normalized'.
  pose proof (total_length_agrees (NFC (a :: t))) as Hm.
  pose proof (mark_total_agrees (NFC (a :: t))) as Hp.
  destruct (while_exec _ _ visual_length_body _ _) as [[[vl ec] li] re].
  cbn [fst visualLength].
  destruct isMonospaced; cbn [fst].
  - unfold slice_position_monospaced.
    destruct (while_exec _ _ total_length_body _ _) as [[tl li'] re'].
    destruct Hm as [-> ->].
    destruct (while_exec _ _ mono_mark_body _ _) as [[[ep li''] vp] re''].
    by apply mono_scan_zero_width.
  - unfold slice_position_proportional.
    destruct (while_exec _ _ mark_body _ _) as [[[[tv ep] li'] vp] re'].
    destruct Hp as [-> ->].
    by apply prop_scan_zero_width.
Qed.

Lemma calculateSlicePositionHelper_zero_width_witness :
  (0 == 0)%Q ∧ (0 < 11)%Q
  ∧ (calculateSlicePositionHelper (fun s => s)
       (grinning_face ++ grinning_face) 0 11 false [] []
       (cache_after (fun s => s) [])).1
    = (- Z.of_nat (visualLength
                     (getVisualLengthHelper (fun s => s)
                        (grinning_face ++ grinning_face) [] []
                        (cache_after (fun s => s) [])).1))%Z.
Proof.
  assert (H1 : (0 == 0)%Q) by reflexivity.
  assert (H2 : (0 < 11)%Q) by reflexivity.
  split; [exact H1|]. split; [exact H2|].
  apply (calculateSlicePositionHelper_zero_width (fun s => s)
           (grinning_face ++ grinning_face) 0 11 false [] [] [] [] [] []
           H1 H2).
Defined.

(** X19: for a last row that is all emoji (as many emoji as visual units,
    at least one, and no short or long character) the balance adjustment
    brings the estimate of the unit width to zero, whatever the width of the
    row. *)
Theorem avgCharWidth_all_emoji (lastRow_width : Q) (profile : VisualLength) :
  0 < visualLength profile →
  emojiCount profile = visualLength profile →
  shortCharCount profile = 0 → longCharCount profile = 0 →
  (avgCharWidth_of lastRow_width profile == 0)%Q.
Proof.
  intros Hpos He Hs Hl. unfold avgCharWidth_of, balance_of, balanceDiffHelper.
  rewrite He, Hs, Hl. rewrite (proj2 (Nat.ltb_lt _ _) Hpos).
  assert (Hq : (0 < nat_to_Q (visualLength profile))%Q).
  { unfold nat_to_Q. rewrite <- (Zlt_Qlt 0). lia. }
  set (n := nat_to_Q (visualLength profile)) in *.
  set (b := (n + 0.5 * nat_to_Q 0 - 0.5 * nat_to_Q 0)%Q).
  assert (Hb : (b == n)%Q) by (subst b; unfold nat_to_Q; simpl; ring).
  assert (Hn0 : ¬ (n == 0)%Q).
  { intros H. rewrite H in Hq. by apply Qlt_irrefl in Hq. }
  destruct (Qeq_bool b 0) eqn:E0.
  { apply Qeq_bool_iff in E0. rewrite Hb in E0. done. }
  destruct (Qle_bool 0 b) eqn:E1; cbn [negb].
  - rewrite Hb, (Qabs_pos n) by by apply Qlt_le_weak.
    field. done.
  - exfalso. assert (¬ (0 <= b)%Q) as Hn
      by (intros H; apply Qle_bool_iff in H; congruence).
    apply Hn. rewrite Hb. by apply Qlt_le_weak.
Qed.

Lemma avgCharWidth_all_emoji_witness :
  let profile :=
    (getVisualLengthHelper (fun s => s) (grinning_face ++ grinning_face)
       [] [] ∅).1 in
  0 < visualLength profile
  ∧ emojiCount profile = visualLength profile
  ∧ (avgCharWidth_of 40 profile == 0)%Q.
Proof.
  intros profile.
  assert (H1 : 0 < visualLength profile) by (vm_compute; lia).
  assert (H2 : emojiCount profile = visualLength profile) by reflexivity.
  split; [exact H1|]. split; [exact H2|].
  apply (avgCharWidth_all_emoji 40 profile H1 H2); reflexivity.
Defined.
